(** * pngbomb: a shallow embedding of the chunk framer of [src/main.rs]

    The program writes a PNG file whose image data is a huge deflated run of
    zeroes.  The reusable part is [ChunkWriter]: it frames one PNG chunk
    ([length][type][payload][crc]) on a seekable sink, either with a length
    known up front or with a placeholder that [finish] patches afterwards.

    Modelling choices.
    - A [u8] is [Stdlib.Strings.Byte.byte]; [u32]/[u64]/[usize] values are [Z]
      with their wrap-around written out ([as_u32], [u64_sub]); the target is
      64-bit, so [usize] is [u64].
    - The sink [W] is [&mut File] in [render]: the file is the state of a
      small state-and-error monad [M].  A [ChunkWriter] value therefore holds
      the fields [len], [crc] and [start]; its field [w] is the file itself.
    - The file behaves like [std::fs::File] (and [io::Cursor<Vec<u8>>]): a
      write at the cursor overwrites, extends, and zero-fills a gap left by a
      seek past the end.  A per-call capacity [cap] lets a sink accept fewer
      bytes than offered (a short write); [None] accepts everything.
    - [println!]/[print!] and the progress bar only touch stdout; they are
      not modelled. *)

From Stdlib Require Import Strings.String Strings.Ascii.
From Stdlib Require Import ZArith List Lia Bool Btauto.
From Stdlib Require Import Strings.Byte.
Import ListNotations.

Open Scope Z_scope.

(** ** Machine integers and bytes *)

Definition zb (b : byte) : Z := Z.of_N (Byte.to_N b).

(** [x as u8] for an integer [x]: its low 8 bits. *)
Definition bz (z : Z) : byte :=
  match Byte.of_N (Z.to_N (z mod 256)) with
  | Some b => b
  | None => x00
  end.

Definition as_u32 (x : Z) : Z := x mod 2 ^ 32.

(** [a - b] on [u64], as a release build computes it (wrapping). *)
Definition u64_sub (a b : Z) : Z := (a - b) mod 2 ^ 64.

(** [u32::to_be_bytes] *)
Definition u32_to_be_bytes (x : Z) : list byte :=
  [bz (Z.shiftr x 24); bz (Z.shiftr x 16); bz (Z.shiftr x 8); bz x].

(** Reading a 4-byte big-endian [u32] back, used by the chunk parser. *)
Definition u32_from_be_bytes (l : list byte) : Z :=
  fold_left (fun acc b => acc * 256 + zb b) l 0.

(** A chunk type tag, [[u8; 4]]. *)
Record Tag := mkTag { t0 : byte; t1 : byte; t2 : byte; t3 : byte }.

Definition tag_bytes (t : Tag) : list byte := [t0 t; t1 t; t2 t; t3 t].

(** ** [crc::crc32] (crate [crc] 1.x), as [ChunkWriter] uses it

    [make_table] builds the reflected table, [update] complements the value
    on entry and exit, [Digest::new] starts from 0. *)
Module crc32.

Definition IEEE : Z := 3988292384. (* 0xedb88320 *)

(** One iteration of the inner loop of [make_table]. *)
Definition table_bit (poly value : Z) : Z :=
  if Z.land value 1 =? 1 then Z.lxor (Z.shiftr value 1) poly
  else Z.shiftr value 1.

Definition make_table_entry (poly : Z) (i : Z) : Z :=
  Nat.iter 8 (table_bit poly) i.

Definition make_table (poly : Z) : list Z :=
  map (fun i => make_table_entry poly (Z.of_nat i)) (seq 0 256).

(** [!value] on a [u32]. *)
Definition not32 (v : Z) : Z := Z.lxor v (2 ^ 32 - 1).

(** [value = table[((value as u8) ^ i) as usize] ^ (value >> 8)] *)
Definition update_byte (table : list Z) (value : Z) (i : byte) : Z :=
  Z.lxor (nth (Z.to_nat (Z.lxor (Z.land value 255) (zb i))) table 0)
         (Z.shiftr value 8).

Definition update (value : Z) (table : list Z) (bytes : list byte) : Z :=
  not32 (fold_left (update_byte table) bytes (not32 value)).

Record Digest := mkDigest { table : list Z; initial : Z; value : Z }.

Definition new (poly : Z) : Digest := mkDigest (make_table poly) 0 0.

(** [Hasher32::write] *)
Definition write (d : Digest) (bytes : list byte) : Digest :=
  mkDigest (table d) (initial d) (update (value d) (table d) bytes).

Definition sum32 (d : Digest) : Z := value d.

End crc32.

(** The textbook bit-at-a-time CRC-32 (IEEE 802.3, reflected, initial value
    and final xor [0xffffffff]), as an independent reference. *)
Definition crc32_ref_byte (c : Z) (b : byte) : Z :=
  Nat.iter 8 (crc32.table_bit crc32.IEEE) (Z.lxor c (zb b)).

Definition crc32_ref (data : list byte) : Z :=
  Z.lxor (fold_left crc32_ref_byte data (2 ^ 32 - 1)) (2 ^ 32 - 1).

Definition bytes_of (l : list Z) : list byte := map bz l.



(** ** The file and the [io::Result]/[errors::Result] monad *)

(** [io::ErrorKind]: the two kinds the modelled code raises itself, and
    any other kind a system call such as [File::create] reports. *)
Inductive IoError := WriteZero | InvalidInput | OtherIo.

(** [errors::Error]: the foreign [io::Error] and [docopt::Error] links, and [ErrorKind::Msg] as
    [bail!] builds it in [finish] from the two numbers it formats. *)
Inductive Error :=
| IO (e : IoError)
| DocoptError
| Msg (wrote expected : Z).

Inductive result (A : Type) := Ok (a : A) | Err (e : Error).
Arguments Ok {A} a.
Arguments Err {A} e.

(** The open file: its contents, its cursor, and how many bytes one call of
    [Write::write] accepts at most ([None]: all of them). *)
Record Sink := mkSink { data : list byte; pos : nat; cap : option nat }.

Definition M (A : Type) : Type := Sink -> Sink * result A.

Definition ret {A} (a : A) : M A := fun s => (s, Ok a).
Definition fail {A} (e : Error) : M A := fun s => (s, Err e).
Definition bind {A B} (m : M A) (k : A -> M B) : M B :=
  fun s => match m s with
           | (s', Ok a) => k a s'
           | (s', Err e) => (s', Err e)
           end.

Notation "x <- m ;; k" := (bind m (fun x => k))
  (at level 61, m at next level, right associativity).
Notation "m ;;; k" := (bind m (fun _ => k))
  (at level 61, right associativity).

(** Writing [d] at cursor [p] of [buf]: overwrite, extend, zero-fill a gap. *)
Definition overwrite (buf : list byte) (p : nat) (d : list byte) : list byte :=
  firstn p buf ++ repeat x00 (p - length buf) ++ d ++ skipn (p + length d) buf.

(** [<File as Write>::write] *)
Definition sink_write (u : unit) (d : list byte) : M (unit * nat) :=
  fun s =>
    let n := match cap s with None => length d | Some k => Nat.min k (length d) end in
    (mkSink (overwrite (data s) (pos s) (firstn n d)) (pos s + n) (cap s), Ok (u, n)).

Inductive SeekFrom := Start (n : Z) | Current (d : Z).

(** [<File as Seek>::seek], returning the new position. *)
Definition seek (f : SeekFrom) : M Z :=
  fun s =>
    let p := match f with Start n => n | Current d => Z.of_nat (pos s) + d end in
    if p <? 0 then (s, Err (IO InvalidInput))
    else (mkSink (data s) (Z.to_nat p) (cap s), Ok p).

(** [Write::write_all], generic in the writer: [wr] is its [write] method
    and [t] the writer value.  Every successful round consumes at least one
    byte, so [length buf] rounds suffice. *)
Fixpoint write_all_fuel {T} (wr : T -> list byte -> M (T * nat))
    (fuel : nat) (t : T) (buf : list byte) : M T :=
  match buf, fuel with
  | [], _ => ret t
  | _, O => ret t
  | _, S fuel' =>
      r <- wr t buf ;;
      let (t', n) := r in
      if (n =? 0)%nat then fail (IO WriteZero)
      else write_all_fuel wr fuel' t' (skipn n buf)
  end.

Definition write_all {T} (wr : T -> list byte -> M (T * nat)) (t : T)
    (buf : list byte) : M T :=
  write_all_fuel wr (length buf) t buf.

(** ** [ChunkWriter] *)

Record ChunkWriter := mkChunkWriter {
  len : option Z;        (* [Option<usize>] *)
  crc : crc32.Digest;
  start : Z              (* [u64] *)
}.

Definition unwrap_or (o : option Z) (d : Z) : Z :=
  match o with Some x => x | None => d end.

Definition begin (typ : Tag) (len : option Z) : M ChunkWriter :=
  start <- seek (Current 0) ;;
  write_all sink_write tt (u32_to_be_bytes (as_u32 (unwrap_or len 0))) ;;;
  let crc := crc32.new crc32.IEEE in
  write_all sink_write tt (tag_bytes typ) ;;;
  let crc := crc32.write crc (tag_bytes typ) in
  ret (mkChunkWriter len crc start).

Definition finish (self : ChunkWriter) : M unit :=
  cur <- seek (Current 0) ;;
  let self_len := len self in
  let len := u64_sub (u64_sub (u64_sub cur (start self)) 4) 4 in
  match self_len with
  | Some hlen =>
      if negb (len =? hlen) then fail (Msg len hlen) else ret tt
  | None =>
      seek (Start (start self)) ;;;
      write_all sink_write tt (u32_to_be_bytes (as_u32 len)) ;;;
      seek (Start cur) ;;;
      ret tt
  end ;;;
  write_all sink_write tt (u32_to_be_bytes (crc32.sum32 (crc self))).

(** [<ChunkWriter as Write>::write] *)
Definition cw_write (self : ChunkWriter) (d : list byte) : M (ChunkWriter * nat) :=
  r <- sink_write tt d ;;
  let (_, num) := r in
  ret (mkChunkWriter (len self) (crc32.write (crc self) d) (start self), num).

Definition write_chunk (typ : Tag) (d : list byte) : M unit :=
  cw <- begin typ (Some (Z.of_nat (length d))) ;;
  cw <- write_all cw_write cw d ;;
  finish cw.

(** The three chunk tags of [png::chunk]. *)
Definition IHDR : Tag := mkTag (bz 73) (bz 72) (bz 68) (bz 82).
Definition IDAT : Tag := mkTag (bz 73) (bz 68) (bz 65) (bz 84).
Definition IEND : Tag := mkTag (bz 73) (bz 69) (bz 78) (bz 68).

Definition empty_file : Sink := mkSink [] 0 None.


(** ** [ZeroReader] *)

Record ZeroReader := mkZeroReader { count : Z; at_ : Z }.

Definition ZeroReader_new (count : Z) : ZeroReader := mkZeroReader count 0.

(** The loop of [<ZeroReader as Read>::read] over [buf.iter_mut()]: it
    returns the updated reader, the updated buffer and [num]. *)
Fixpoint read_loop (self : ZeroReader) (buf : list byte) (num : Z)
    : ZeroReader * list byte * Z :=
  match buf with
  | [] => (self, [], num)
  | c :: rest =>
      if at_ self =? count self then (self, c :: rest, num)
      else
        let '(self', rest', num') :=
          read_loop (mkZeroReader (count self) (at_ self + 1)) rest (num + 1) in
        (self', x00 :: rest', num')
  end.

Definition read (self : ZeroReader) (buf : list byte) : ZeroReader * list byte * Z :=
  read_loop self buf 0.

(** A sequence of [read] calls with buffers of the given sizes (fresh
    buffers of arbitrary contents [fill]); it collects the bytes each call
    reports as read, [&buf[..num]]. *)
Fixpoint read_many (self : ZeroReader) (fill : byte) (sizes : list nat)
    : ZeroReader * list byte :=
  match sizes with
  | [] => (self, [])
  | k :: ks =>
      let '(self', buf', num) := read self (repeat fill k) in
      let '(self'', out) := read_many self' fill ks in
      (self'', firstn (Z.to_nat num) buf' ++ out)
  end.


(** ** [render] and [run] *)

(** [png::ColorType] and [png::BitDepth] with their discriminants. *)
Inductive ColorType := Grayscale | RGB | Indexed | GrayscaleAlpha | RGBA.

Definition color_type_u8 (c : ColorType) : Z :=
  match c with Grayscale => 0 | RGB => 2 | Indexed => 3
          | GrayscaleAlpha => 4 | RGBA => 6 end.

Definition samples (c : ColorType) : Z :=
  match c with Grayscale => 1 | RGB => 3 | Indexed => 1
          | GrayscaleAlpha => 2 | RGBA => 4 end.

Inductive BitDepth := One | Two | Four | Eight | Sixteen.

Definition bit_depth_u8 (b : BitDepth) : Z :=
  match b with One => 1 | Two => 2 | Four => 4 | Eight => 8 | Sixteen => 16 end.

(** [png::Info::raw_row_length] of the [png] crate (a collaborator, not code
    of this repository): one filter byte plus the packed row. *)
Definition raw_row_length (width : Z) (c : ColorType) (b : BitDepth) : Z :=
  let samples := width * samples c in
  1 + match b with
      | Sixteen => samples * 2
      | Eight => samples
      | _ => let samples_per_byte := 8 / bit_depth_u8 b in
             samples / samples_per_byte
             + (if samples mod samples_per_byte >? 0 then 1 else 0)
      end.

Definition signature : list byte := bytes_of [137; 80; 78; 71; 13; 10; 26; 10].

(** The 13-byte IHDR payload, built as [render] builds [hdr]. *)
Definition ihdr_payload (width height : Z) (c : ColorType) (b : BitDepth) : list byte :=
  let hdr := repeat x00 13 in
  let hdr := overwrite hdr 0 (u32_to_be_bytes (as_u32 width)) in
  let hdr := overwrite hdr 4 (u32_to_be_bytes (as_u32 height)) in
  let hdr := overwrite hdr 8 [bz (bit_depth_u8 b)] in
  overwrite hdr 9 [bz (color_type_u8 c)].

(** The body of [loop { let len = zdata.read(..)?; if len == 0 { break; }
    idat.write_all(&buf[..len])?; .. }]: [reads] are the successive results
    of [zdata.read]. *)
Fixpoint idat_loop (idat : ChunkWriter) (reads : list (list byte)) : M ChunkWriter :=
  match reads with
  | [] => ret idat
  | blk :: rest =>
      if (length blk =? 0)%nat then ret idat
      else idat <- write_all cw_write idat blk ;; idat_loop idat rest
  end.

Section Render.

(** The [ZlibEncoder] over the [BufReader] over the [ZeroReader] (the
    [flate2] crate, a collaborator): [zlib_reads raw] is the sequence of
    results of [zdata.read] when the uncompressed stream is [raw]. *)
Variable zlib_reads : list byte -> list (list byte).

Definition render (width height : Z) (color_type : ColorType) (bit_depth : BitDepth)
    : M unit :=
  write_all sink_write tt signature ;;;
  write_chunk IHDR (ihdr_payload width height color_type bit_depth) ;;;
  let ibytes := (raw_row_length (as_u32 width) color_type bit_depth * height) mod 2 ^ 64 in
  (* The [ZeroReader] of [ibytes] bytes drained by [BufReader]. *)
  let raw := repeat x00 (Z.to_nat ibytes) in
  idat <- begin IDAT None ;;
  idat <- idat_loop idat (zlib_reads raw) ;;
  finish idat ;;;
  write_chunk IEND [].

End Render.

(** [usize::from_str], which [docopt] applies to [--width] and [--height]:
    an optional [+], then one or more decimal digits, below [2^64]. *)
Fixpoint digits_value (s : String.string) (acc : Z) : option Z :=
  match s with
  | String.EmptyString => Some acc
  | String.String c rest =>
      let d := Z.of_nat (Ascii.nat_of_ascii c) - 48 in
      if (0 <=? d) && (d <=? 9) then digits_value rest (acc * 10 + d) else None
  end.

Definition parse_usize (s : String.string) : option Z :=
  let body := match s with
              | String.String c rest =>
                  if Ascii.eqb c (Ascii.ascii_of_nat 43) then rest else s
              | _ => s
              end in
  match body with
  | String.EmptyString => None
  | _ => match digits_value body 0 with
         | Some v => if v <? 2 ^ 64 then Some v else None
         | None => None
         end
  end.

(** [char::is_whitespace], on the UTF-8 encoding of a command-line argument
    ([std::env::args] yields valid UTF-8): the encodings of the 25 characters
    with the Unicode [White_Space] property. *)
Definition utf8_whitespace : list (list nat) :=
  [[9]; [10]; [11]; [12]; [13]; [32]; [194; 133]; [194; 160]; [225; 154; 128];
   [226; 128; 128]; [226; 128; 129]; [226; 128; 130]; [226; 128; 131];
   [226; 128; 132]; [226; 128; 133]; [226; 128; 134]; [226; 128; 135];
   [226; 128; 136]; [226; 128; 137]; [226; 128; 138];
   [226; 128; 168]; [226; 128; 169]; [226; 128; 175]; [226; 129; 159];
   [227; 128; 128]]%nat.

Fixpoint is_prefix (w l : list nat) : bool :=
  match w, l with
  | [], _ => true
  | x :: w', y :: l' => Nat.eqb x y && is_prefix w' l'
  | _ :: _, [] => false
  end.

(** The bytes [l] are a sequence of whitespace characters (at most [fuel]). *)
Fixpoint all_whitespace (fuel : nat) (l : list nat) : bool :=
  match l, fuel with
  | [], _ => true
  | _, O => false
  | _, S f => existsb (fun w => if is_prefix w l then all_whitespace f (skipn (length w) l)
                                 else false)
                      utf8_whitespace
  end.

(** [s.trim().is_empty()] *)
Definition trim_is_empty (s : String.string) : bool :=
  let l := map Ascii.nat_of_ascii (list_ascii_of_string s) in
  all_whitespace (length l) l.

(** [docopt]'s [Deserializer::to_number] for a [usize] field: a value that is
    empty or only whitespace gives ["0".parse()], that is 0; any other value
    is parsed as it is, untrimmed, by [usize::from_str]. *)
Definition docopt_usize (s : String.string) : option Z :=
  if trim_is_empty s then Some 0 else parse_usize s.

(** The value [docopt] gives a [PX] flag: its argument, or the default
    ["10000"], converted to a [usize]. *)
Definition flag_value (o : option String.string) : option Z :=
  docopt_usize (match o with Some s => s | None => "10000"%string end).

(** [run]: [Docopt::new(USAGE)?.deserialize()?] yields the [<outfile>]
    argument and the two flags; any failure there is [Error::Docopt],
    returned before [File::create].  The world is the output file: [None]
    while it does not exist.  [create] is the outcome of [File::create]:
    [None] when it succeeds and makes the file empty, [Some e] when it fails
    with an I/O error of kind [e], which [?] returns as [Error::Io] with no
    file made. *)
Definition run (zlib_reads : list byte -> list (list byte)) (create : option IoError)
    (outfile : option String.string) (width height : option String.string)
    : option Sink * result unit :=
  match outfile, flag_value width, flag_value height with
  | Some _, Some w, Some h =>
      match create with
      | Some e => (None, Err (IO e))
      | None => let (f, r) := render zlib_reads w h Grayscale One empty_file in (Some f, r)
      end
  | _, _, _ => (None, Err DocoptError)
  end.

(** A concrete [zlib] encoder, to run [render] on concrete inputs: a zlib
    header, one final stored block (inputs below 64 KiB) and the Adler-32
    trailer, returned by a single [read]. *)
Definition adler32 (l : list byte) : Z :=
  let '(a, b) :=
    fold_left (fun ab x => let a' := (fst ab + zb x) mod 65521 in
                           (a', (snd ab + a') mod 65521)) l (1, 0) in
  b * 65536 + a.

Definition stored_zlib (raw : list byte) : list (list byte) :=
  let n := Z.of_nat (length raw) in
  [bytes_of [120; 1; 1; n mod 256; n / 256; 255 - n mod 256; 255 - n / 256]
   ++ raw ++ u32_to_be_bytes (adler32 raw)].

(** ** Callers of [ChunkWriter]

    A caller that issues [write_all] on an open chunk once per block, in
    order (what [render] does with the blocks from the compressor). *)
Fixpoint write_seq (cw : ChunkWriter) (ds : list (list byte)) : M ChunkWriter :=
  match ds with
  | [] => ret cw
  | d :: ds' => cw <- write_all cw_write cw d ;; write_seq cw ds'
  end.

(** The file state after writing [d] at the cursor in one piece. *)
Definition sink_after (s : Sink) (d : list byte) : Sink :=
  mkSink (overwrite (data s) (pos s) d) (pos s + length d) (cap s).

(** A file every [write] call of which accepts the whole buffer, with the
    cursor inside the data (as [File::create] and the writes leave it). *)
Definition full (s : Sink) : Prop := cap s = None /\ (pos s <= length (data s))%nat.

(** The bytes of one framed chunk: length field, type, payload, and the
    CRC-32 of type and payload. *)
Definition chunk_bytes (length_field : Z) (typ : Tag) (payload : list byte) : list byte :=
  u32_to_be_bytes length_field ++ tag_bytes typ ++ payload
  ++ u32_to_be_bytes (crc32_ref (tag_bytes typ ++ payload)).

(** Opening a chunk, writing the blocks [ds] in order, finishing it. *)
Definition framed (typ : Tag) (lm : option Z) (ds : list (list byte)) : M unit :=
  cw <- begin typ lm ;; cw <- write_seq cw ds ;; finish cw.

(** An independent reader of one chunk: length field, type, that many
    payload bytes, checksum field.  It is the oracle of the round-trip
    property of the specification, not code of the program. *)
Definition parse_chunk (bytes : list byte) : option (list byte * list byte * Z) :=
  let L := u32_from_be_bytes (firstn 4 bytes) in
  let ty := firstn 4 (skipn 4 bytes) in
  let rest := skipn 8 bytes in
  let n := Z.to_nat L in
  if (length bytes <? 8)%nat then None
  else if (length rest <? n + 4)%nat then None
  else Some (ty, firstn n rest, u32_from_be_bytes (firstn 4 (skipn n rest))).

(** The buffers [write_all] offers, one per call, to a writer that accepts at
    most [k] bytes per call: [buf], then what is left after each call. *)
Fixpoint offered (k : nat) (fuel : nat) (buf : list byte) : list (list byte) :=
  match buf, fuel with
  | [], _ => []
  | _, O => []
  | _, S f => buf :: offered k f (skipn k buf)
  end.

(** * Properties *)

(** ** Sanity checks of the model on concrete inputs *)

Example crc32_ref_check :
  crc32_ref (bytes_of [49; 50; 51; 52; 53; 54; 55; 56; 57]) = 3421780262.
Proof. vm_compute. reflexivity. Qed.

Example crc32_digest_check :
  crc32.sum32 (crc32.write (crc32.new crc32.IEEE)
                 (bytes_of [49; 50; 51; 52; 53; 54; 55; 56; 57])) = 3421780262.
Proof. vm_compute. reflexivity. Qed.

Example write_chunk_IEND :
  write_chunk IEND [] empty_file =
  (mkSink (bytes_of [0; 0; 0; 0; 73; 69; 78; 68; 174; 66; 96; 130]) 12 None, Ok tt).
Proof. vm_compute. reflexivity. Qed.

Example adler32_check :
  adler32 (bytes_of [87; 105; 107; 105; 112; 101; 100; 105; 97]) = 300286872.
Proof. vm_compute. reflexivity. Qed.

Example read_many_check :
  read_many (ZeroReader_new 5) (bz 7) [2; 0; 2; 4; 3]%nat =
  (mkZeroReader 5 5, repeat x00 5).
Proof. reflexivity. Qed.

(** ** Bytes and big-endian fields *)

Lemma zb_range (b : byte) : 0 <= zb b < 256.
Proof.
  unfold zb. pose proof (Byte.to_N_bounded b). lia.
Qed.

Lemma zb_bz (z : Z) : zb (bz z) = z mod 256.
Proof.
  unfold bz. pose proof (Z.mod_pos_bound z 256 ltac:(lia)) as Hr.
  destruct (Byte.of_N (Z.to_N (z mod 256))) as [b|] eqn:E.
  - apply Byte.to_of_N in E. unfold zb. rewrite E. apply Z2N.id. lia.
  - apply Byte.of_N_None_iff in E. lia.
Qed.

Lemma bz_zb (b : byte) : bz (zb b) = b.
Proof.
  unfold bz. pose proof (zb_range b).
  rewrite Z.mod_small by lia. unfold zb. rewrite N2Z.id, Byte.of_to_N. reflexivity.
Qed.

Lemma bz_mod (x y : Z) : x mod 256 = y mod 256 -> bz x = bz y.
Proof. intros H. unfold bz. rewrite H. reflexivity. Qed.

Lemma shiftr_mod256 (x y k : Z) :
  0 <= k -> k + 8 <= 32 -> x mod 2 ^ 32 = y mod 2 ^ 32 ->
  Z.shiftr x k mod 256 = Z.shiftr y k mod 256.
Proof.
  intros Hk Hk8 H. change 256 with (2 ^ 8).
  apply Z.bits_inj'. intros n Hn.
  destruct (Z.lt_ge_cases n 8).
  - rewrite !Z.mod_pow2_bits_low by lia. rewrite !Z.shiftr_spec by lia.
    rewrite <- (Z.mod_pow2_bits_low x 32) by lia.
    rewrite <- (Z.mod_pow2_bits_low y 32) by lia. now rewrite H.
  - rewrite !Z.mod_pow2_bits_high by lia. reflexivity.
Qed.

(** [to_be_bytes] only sees the value modulo [2^32]. *)
Lemma u32_to_be_bytes_mod (x y : Z) :
  x mod 2 ^ 32 = y mod 2 ^ 32 -> u32_to_be_bytes x = u32_to_be_bytes y.
Proof.
  intros H. unfold u32_to_be_bytes.
  rewrite (bz_mod (Z.shiftr x 24) (Z.shiftr y 24)) by (apply shiftr_mod256; lia).
  rewrite (bz_mod (Z.shiftr x 16) (Z.shiftr y 16)) by (apply shiftr_mod256; lia).
  rewrite (bz_mod (Z.shiftr x 8) (Z.shiftr y 8)) by (apply shiftr_mod256; lia).
  rewrite (bz_mod x y). reflexivity.
  rewrite <- (Z.shiftr_0_r x), <- (Z.shiftr_0_r y). apply shiftr_mod256; lia.
Qed.

Lemma u32_to_be_bytes_as_u32 (x : Z) : u32_to_be_bytes (as_u32 x) = u32_to_be_bytes x.
Proof. apply u32_to_be_bytes_mod. unfold as_u32. apply Zmod_mod. Qed.

Lemma u32_to_be_bytes_mod64 (x : Z) : u32_to_be_bytes (x mod 2 ^ 64) = u32_to_be_bytes x.
Proof.
  apply u32_to_be_bytes_mod. apply Z.mod_mod_divide. exists (2 ^ 32). reflexivity.
Qed.

Lemma length_u32_to_be_bytes (x : Z) : length (u32_to_be_bytes x) = 4%nat.
Proof. reflexivity. Qed.

Lemma mod_split (a k : Z) : 0 < k -> a mod (256 * k) = a mod 256 + 256 * ((a / 256) mod k).
Proof.
  intros Hk. rewrite (Z.mod_eq a (256 * k)), (Z.mod_eq a 256), (Z.mod_eq (a / 256) k)
    by lia.
  rewrite <- Z.div_div by lia. ring.
Qed.

Lemma u32_from_to_be_bytes (x : Z) : u32_from_be_bytes (u32_to_be_bytes x) = as_u32 x.
Proof.
  unfold u32_from_be_bytes, u32_to_be_bytes, as_u32. cbn [fold_left].
  rewrite !zb_bz, !Z.shiftr_div_pow2 by lia.
  change (2 ^ 32) with (256 * (256 * (256 * 256))).
  rewrite !mod_split by lia. rewrite !Z.div_div by lia.
  change (2 ^ 24) with (256 * 256 * 256). change (2 ^ 16) with (256 * 256).
  change (2 ^ 8) with 256. lia.
Qed.

(** ** The CRC digest *)

Lemma not32_involutive (v : Z) : crc32.not32 (crc32.not32 v) = v.
Proof.
  unfold crc32.not32. rewrite Z.lxor_assoc, Z.lxor_nilpotent. apply Z.lxor_0_r.
Qed.

Lemma update_app (v : Z) (t : list Z) (a b : list byte) :
  crc32.update (crc32.update v t a) t b = crc32.update v t (a ++ b).
Proof.
  unfold crc32.update. rewrite not32_involutive, fold_left_app. reflexivity.
Qed.

(** Feeding a digest twice is feeding it the concatenation. *)
Lemma digest_write_app (d : crc32.Digest) (a b : list byte) :
  crc32.write (crc32.write d a) b = crc32.write d (a ++ b).
Proof.
  destruct d as [t i v]. unfold crc32.write. simpl. now rewrite update_app.
Qed.

Lemma digest_write_nil (d : crc32.Digest) : crc32.write d [] = d.
Proof.
  destruct d as [t i v]. unfold crc32.write, crc32.update. simpl.
  now rewrite not32_involutive.
Qed.

Lemma land1_testbit (x : Z) : (Z.land x 1 =? 1) = Z.testbit x 0.
Proof.
  change 1 with (Z.ones 1) at 1. rewrite Z.land_ones by lia.
  change (2 ^ 1) with 2. rewrite Z.bit0_odd, Zmod_odd.
  destruct (Z.odd x); reflexivity.
Qed.

Lemma table_bit_lxor (p x y : Z) :
  crc32.table_bit p (Z.lxor x y) = Z.lxor (crc32.table_bit p x) (crc32.table_bit p y).
Proof.
  unfold crc32.table_bit. rewrite !land1_testbit, Z.lxor_spec, Z.shiftr_lxor.
  destruct (Z.testbit x 0), (Z.testbit y 0); simpl;
    apply Z.bits_inj'; intros n Hn; rewrite ?Z.lxor_spec; btauto.
Qed.

Lemma iter_table_bit_lxor (k : nat) (p x y : Z) :
  Nat.iter k (crc32.table_bit p) (Z.lxor x y)
  = Z.lxor (Nat.iter k (crc32.table_bit p) x) (Nat.iter k (crc32.table_bit p) y).
Proof.
  induction k as [|k IH]; [reflexivity|].
  now rewrite !Nat.iter_succ, IH, table_bit_lxor.
Qed.

Lemma iter_table_bit_shiftl (k : nat) (p w : Z) :
  (k <= 8)%nat ->
  Nat.iter k (crc32.table_bit p) (Z.shiftl w 8) = Z.shiftl w (8 - Z.of_nat k).
Proof.
  induction k as [|k IH]; intros Hk.
  - reflexivity.
  - rewrite Nat.iter_succ, IH by lia. unfold crc32.table_bit.
    rewrite land1_testbit, Z.shiftl_spec_low by lia.
    rewrite Z.shiftr_shiftl_l by lia. f_equal. lia.
Qed.

Lemma testbit_zb_high (b : byte) (n : Z) : 8 <= n -> Z.testbit (zb b) n = false.
Proof.
  intros Hn. pose proof (zb_range b).
  rewrite <- (Z.mod_small (zb b) (2 ^ 8)) by (change (2 ^ 8) with 256; lia).
  apply Z.mod_pow2_bits_high. lia.
Qed.

Lemma lxor_byte_split (v : Z) (b : byte) :
  Z.lxor v (zb b)
  = Z.lxor (Z.lxor (Z.land v 255) (zb b)) (Z.shiftl (Z.shiftr v 8) 8).
Proof.
  apply Z.bits_inj'. intros n Hn. change 255 with (Z.ones 8).
  rewrite !Z.lxor_spec, Z.land_spec.
  destruct (Z.lt_ge_cases n 8).
  - rewrite Z.ones_spec_low, Z.shiftl_spec_low by lia. btauto.
  - rewrite Z.ones_spec_high, Z.shiftl_spec_high, Z.shiftr_spec, testbit_zb_high by lia.
    replace (n - 8 + 8) with n by lia. btauto.
Qed.

Lemma make_table_nth (p i : Z) :
  0 <= i < 256 -> nth (Z.to_nat i) (crc32.make_table p) 0 = crc32.make_table_entry p i.
Proof.
  intros Hi. unfold crc32.make_table.
  rewrite (nth_indep _ _ (crc32.make_table_entry p (Z.of_nat 0)))
    by (rewrite length_map, length_seq; lia).
  rewrite (map_nth (fun i => crc32.make_table_entry p (Z.of_nat i))).
  rewrite seq_nth by lia. simpl. now rewrite Z2Nat.id by lia.
Qed.

Lemma update_byte_ref (v : Z) (b : byte) :
  crc32.update_byte (crc32.make_table crc32.IEEE) v b = crc32_ref_byte v b.
Proof.
  unfold crc32.update_byte, crc32_ref_byte.
  assert (Hi : 0 <= Z.lxor (Z.land v 255) (zb b) < 256).
  { replace (Z.lxor (Z.land v 255) (zb b)) with (Z.land (Z.lxor v (zb b)) (Z.ones 8)).
    - rewrite Z.land_ones by lia. apply Z.mod_pos_bound. lia.
    - apply Z.bits_inj'. intros n Hn. change 255 with (Z.ones 8).
      rewrite !Z.land_spec, !Z.lxor_spec, Z.land_spec.
      destruct (Z.lt_ge_cases n 8).
      + rewrite Z.ones_spec_low by lia. btauto.
      + rewrite Z.ones_spec_high, testbit_zb_high by lia. btauto. }
  rewrite make_table_nth by exact Hi. unfold crc32.make_table_entry.
  rewrite (lxor_byte_split v b).
  rewrite (iter_table_bit_lxor 8 _ (Z.lxor (Z.land v 255) (zb b))).
  rewrite iter_table_bit_shiftl by lia.
  change (8 - Z.of_nat 8) with 0. now rewrite Z.shiftl_0_r.
Qed.

(** The digest of a fresh [Digest::new(IEEE)] fed [data] is the CRC-32 of [data]. *)
Lemma digest_new_ref (data : list byte) :
  crc32.sum32 (crc32.write (crc32.new crc32.IEEE) data) = crc32_ref data.
Proof.
  unfold crc32.sum32, crc32.write, crc32.new, crc32.update, crc32_ref.
  cbn [crc32.value crc32.table]. unfold crc32.not32.
  replace (Z.lxor 0 (2 ^ 32 - 1)) with (2 ^ 32 - 1) by reflexivity. f_equal.
  generalize (2 ^ 32 - 1). induction data as [|b data IH]; intros v; simpl.
  - reflexivity.
  - rewrite update_byte_ref. apply IH.
Qed.

(** ** The file buffer *)

Lemma overwrite_in (buf d : list byte) (p : nat) :
  (p <= length buf)%nat ->
  overwrite buf p d = firstn p buf ++ d ++ skipn (p + length d) buf.
Proof.
  intros Hp. unfold overwrite. replace (p - length buf)%nat with 0%nat by lia.
  reflexivity.
Qed.

Lemma length_overwrite_in (buf d : list byte) (p : nat) :
  (p <= length buf)%nat ->
  length (overwrite buf p d) = Nat.max (length buf) (p + length d).
Proof.
  intros Hp. rewrite overwrite_in by exact Hp.
  rewrite !length_app, length_firstn, length_skipn. lia.
Qed.

Lemma firstn_app_exact (l1 l2 : list byte) (n : nat) :
  n = length l1 -> firstn n (l1 ++ l2) = l1.
Proof.
  intros ->. rewrite firstn_app, firstn_all, Nat.sub_diag, firstn_O. apply app_nil_r.
Qed.

Lemma skipn_app_exact (l1 l2 : list byte) (n k : nat) :
  n = (length l1 + k)%nat -> skipn n (l1 ++ l2) = skipn k l2.
Proof.
  intros ->. rewrite skipn_app, (skipn_all2 l1) by lia. simpl. f_equal. lia.
Qed.

Lemma overwrite_app (buf a b : list byte) (p : nat) :
  (p <= length buf)%nat ->
  overwrite (overwrite buf p a) (p + length a) b = overwrite buf p (a ++ b).
Proof.
  intros Hp. rewrite (overwrite_in buf) by exact Hp.
  assert (Hf : length (firstn p buf) = p) by (rewrite length_firstn; lia).
  rewrite overwrite_in by (rewrite ?length_app, ?length_skipn; lia).
  rewrite overwrite_in by exact Hp.
  rewrite (app_assoc (firstn p buf) a), firstn_app_exact by (rewrite ?length_app; lia).
  rewrite skipn_app_exact with (k := length b) by (rewrite ?length_app; lia).
  rewrite skipn_skipn, length_app, <- !app_assoc.
  do 4 f_equal. lia.
Qed.

Lemma overwrite_prefix (buf a b c : list byte) (p : nat) :
  (p <= length buf)%nat -> length a = length b ->
  overwrite (overwrite buf p (a ++ c)) p b = overwrite buf p (b ++ c).
Proof.
  intros Hp Hab. rewrite (overwrite_in buf) by exact Hp.
  assert (Hf : length (firstn p buf) = p) by (rewrite length_firstn; lia).
  rewrite overwrite_in by (rewrite ?length_app, ?length_skipn; lia).
  rewrite overwrite_in by exact Hp.
  rewrite firstn_app_exact by lia.
  rewrite skipn_app_exact with (k := length b) by lia.
  rewrite <- (app_assoc a c), (skipn_app_exact a) with (k := 0%nat) by lia.
  rewrite skipn_O, !length_app, <- !app_assoc, Hab. reflexivity.
Qed.

(** ** The file operations on a file that accepts whole writes *)

Lemma full_sink_after (s : Sink) (d : list byte) : full s -> full (sink_after s d).
Proof.
  intros [Hc Hp]. split; [exact Hc|]. unfold sink_after; simpl.
  rewrite length_overwrite_in by exact Hp. lia.
Qed.

Lemma sink_after_app (s : Sink) (a b : list byte) :
  full s -> sink_after (sink_after s a) b = sink_after s (a ++ b).
Proof.
  intros [Hc Hp]. unfold sink_after; simpl.
  rewrite overwrite_app by exact Hp. rewrite length_app. f_equal. lia.
Qed.

Lemma sink_after_nil (s : Sink) : full s -> sink_after s [] = s.
Proof.
  intros [Hc Hp]. destruct s as [d p c]. unfold sink_after; simpl in *.
  rewrite overwrite_in by exact Hp. simpl. rewrite Nat.add_0_r, firstn_skipn.
  reflexivity.
Qed.

Lemma seek_current0 (s : Sink) : seek (Current 0) s = (s, Ok (Z.of_nat (pos s))).
Proof.
  destruct s as [d p c]. unfold seek; simpl.
  rewrite Z.add_0_r. destruct (Z.of_nat p <? 0) eqn:E; [apply Z.ltb_lt in E; lia|].
  rewrite Nat2Z.id. reflexivity.
Qed.

Lemma seek_start (s : Sink) (n : Z) :
  0 <= n -> seek (Start n) s = (mkSink (data s) (Z.to_nat n) (cap s), Ok n).
Proof.
  intros Hn. unfold seek. destruct (n <? 0) eqn:E; [apply Z.ltb_lt in E; lia|].
  reflexivity.
Qed.

Lemma write_all_sink_full (s : Sink) (d : list byte) :
  full s -> write_all sink_write tt d s = (sink_after s d, Ok tt).
Proof.
  intros Hf. destruct d as [|b d].
  - now rewrite sink_after_nil.
  - destruct Hf as [Hc Hp]. unfold write_all. simpl length.
    cbn [write_all_fuel]. unfold bind, sink_write. rewrite Hc. simpl.
    rewrite firstn_all, skipn_all. unfold sink_after. rewrite ?Hc. destruct d; reflexivity.
Qed.

Lemma write_all_cw_full (s : Sink) (cw : ChunkWriter) (d : list byte) :
  full s ->
  write_all cw_write cw d s
  = (sink_after s d,
     Ok (mkChunkWriter (len cw) (crc32.write (crc cw) d) (start cw))).
Proof.
  intros Hf. destruct d as [|b d].
  - rewrite sink_after_nil by exact Hf. rewrite digest_write_nil.
    destruct cw; reflexivity.
  - destruct Hf as [Hc Hp]. unfold write_all. simpl length.
    cbn [write_all_fuel]. unfold bind, cw_write, sink_write. simpl. rewrite Hc. simpl.
    rewrite firstn_all, skipn_all. unfold sink_after. rewrite ?Hc. destruct d; reflexivity.
Qed.

(** ** [begin], writes and [finish], one at a time *)

Lemma u64_len (cur st : Z) :
  0 <= st -> st + 8 <= cur < 2 ^ 64 ->
  u64_sub (u64_sub (u64_sub cur st) 4) 4 = cur - st - 8.
Proof.
  intros H1 H2. unfold u64_sub.
  rewrite (Z.mod_small (cur - st)) by lia.
  rewrite (Z.mod_small (cur - st - 4)) by lia.
  rewrite Z.mod_small by lia. lia.
Qed.

Lemma begin_full (s : Sink) (typ : Tag) (lm : option Z) :
  full s ->
  begin typ lm s
  = (sink_after s (u32_to_be_bytes (as_u32 (unwrap_or lm 0)) ++ tag_bytes typ),
     Ok (mkChunkWriter lm (crc32.write (crc32.new crc32.IEEE) (tag_bytes typ))
                       (Z.of_nat (pos s)))).
Proof.
  intros Hf. unfold begin, bind. rewrite seek_current0. cbv beta iota zeta.
  rewrite write_all_sink_full by exact Hf. cbv beta iota zeta.
  rewrite write_all_sink_full by (apply full_sink_after; exact Hf). cbv beta iota zeta.
  rewrite sink_after_app by exact Hf. reflexivity.
Qed.

Lemma write_seq_full (ds : list (list byte)) (s : Sink) (cw : ChunkWriter) :
  full s ->
  write_seq cw ds s
  = (sink_after s (concat ds),
     Ok (mkChunkWriter (len cw) (crc32.write (crc cw) (concat ds)) (start cw))).
Proof.
  revert s cw. induction ds as [|d ds IH]; intros s cw Hf.
  - simpl. rewrite sink_after_nil, digest_write_nil by exact Hf.
    destruct cw; reflexivity.
  - cbn [write_seq concat]. unfold bind at 1. rewrite write_all_cw_full by exact Hf.
    rewrite IH by (apply full_sink_after; exact Hf). simpl.
    rewrite sink_after_app, digest_write_app by exact Hf. reflexivity.
Qed.

Lemma finish_deferred (cw : ChunkWriter) (s : Sink) :
  full s -> len cw = None -> 0 <= start cw ->
  start cw + 8 <= Z.of_nat (pos s) < 2 ^ 64 ->
  finish cw s
  = (let s1 := mkSink (data s) (Z.to_nat (start cw)) None in
     let s2 := sink_after s1 (u32_to_be_bytes (as_u32 (Z.of_nat (pos s) - start cw - 8))) in
     let s3 := mkSink (data s2) (pos s) None in
     (sink_after s3 (u32_to_be_bytes (crc32.sum32 (crc cw))), Ok tt)).
Proof.
  intros [Hc Hp] Hl H0 Hb. unfold finish, bind. rewrite seek_current0.
  cbv beta iota zeta. rewrite Hl, u64_len by lia.
  rewrite seek_start by exact H0. cbv beta iota zeta. rewrite Hc.
  rewrite write_all_sink_full
    by (split; [reflexivity|]; simpl; lia).
  cbv beta iota zeta. rewrite seek_start by lia. cbv beta iota zeta.
  rewrite Nat2Z.id. unfold ret. cbv beta iota.
  rewrite write_all_sink_full.
  - reflexivity.
  - split; [reflexivity|]. simpl. rewrite length_overwrite_in by (simpl; lia).
    simpl. lia.
Qed.

Lemma finish_known (cw : ChunkWriter) (s : Sink) (h : Z) :
  full s -> len cw = Some h -> 0 <= start cw ->
  start cw + 8 <= Z.of_nat (pos s) < 2 ^ 64 ->
  finish cw s
  = if Z.of_nat (pos s) - start cw - 8 =? h
    then (sink_after s (u32_to_be_bytes (crc32.sum32 (crc cw))), Ok tt)
    else (s, Err (Msg (Z.of_nat (pos s) - start cw - 8) h)).
Proof.
  intros Hf Hl H0 Hb. unfold finish, bind. rewrite seek_current0.
  cbv beta iota zeta. rewrite Hl, u64_len by lia.
  destruct (Z.of_nat (pos s) - start cw - 8 =? h); simpl.
  - apply write_all_sink_full. exact Hf.
  - reflexivity.
Qed.

Lemma crc_of_chunk (typ : Tag) (payload : list byte) :
  crc32.sum32 (crc32.write (crc32.write (crc32.new crc32.IEEE) (tag_bytes typ)) payload)
  = crc32_ref (tag_bytes typ ++ payload).
Proof. rewrite digest_write_app. apply digest_new_ref. Qed.

(** [finish] on the state [begin] and the writes of [P] leave. *)
Lemma finish_after_writes (s : Sink) (typ : Tag) (lm : option Z) (P : list byte) :
  full s ->
  Z.of_nat (pos s) + 8 + Z.of_nat (length P) < 2 ^ 64 ->
  finish (mkChunkWriter lm (crc32.write (crc32.write (crc32.new crc32.IEEE) (tag_bytes typ)) P)
                        (Z.of_nat (pos s)))
         (sink_after s ((u32_to_be_bytes (as_u32 (unwrap_or lm 0)) ++ tag_bytes typ) ++ P))
  = let n := Z.of_nat (length P) in
    match lm with
    | Some h =>
        if n =? h then (sink_after s (chunk_bytes h typ P), Ok tt)
        else (sink_after s (u32_to_be_bytes h ++ tag_bytes typ ++ P), Err (Msg n h))
    | None => (sink_after s (chunk_bytes n typ P), Ok tt)
    end.
Proof.
  intros Hf Hb.
  set (s' := sink_after s _).
  assert (Hf' : full s') by (apply full_sink_after; exact Hf).
  assert (Hpos : pos s' = (pos s + 8 + length P)%nat)
    by (unfold s'; simpl; rewrite ?length_app; simpl; lia).
  destruct Hf as [Hc Hp].
  destruct lm as [h|]; cbv beta iota.
  - rewrite finish_known with (h := h) by first [exact Hf' | reflexivity | cbn [start len]; try rewrite Hpos; lia].
    cbn [start crc]. rewrite Hpos.
    replace (Z.of_nat (pos s + 8 + length P) - Z.of_nat (pos s) - 8)
      with (Z.of_nat (length P)) by lia.
    unfold s'. cbn [unwrap_or]. rewrite u32_to_be_bytes_as_u32, <- app_assoc.
    destruct (Z.of_nat (length P) =? h); [|reflexivity].
    rewrite sink_after_app by (split; assumption).
    rewrite crc_of_chunk. unfold chunk_bytes. rewrite <- !app_assoc. reflexivity.
  - rewrite finish_deferred by first [exact Hf' | reflexivity | cbn [start len]; try rewrite Hpos; lia].
    cbn [start crc]. rewrite Hpos.
    replace (Z.of_nat (pos s + 8 + length P) - Z.of_nat (pos s) - 8)
      with (Z.of_nat (length P)) by lia.
    rewrite crc_of_chunk, u32_to_be_bytes_as_u32, Nat2Z.id.
    unfold s', sink_after, chunk_bytes. cbn [data pos cap]. rewrite Hc.
    rewrite <- (app_assoc (u32_to_be_bytes _) (tag_bytes typ)).
    rewrite overwrite_prefix by (try rewrite length_app; simpl; lia).
    rewrite (app_assoc (u32_to_be_bytes (Z.of_nat (length P)))).
    replace (pos s + 8 + length P)%nat
      with (pos s + length ((u32_to_be_bytes (Z.of_nat (length P)) ++ tag_bytes typ) ++ P))%nat
      by (rewrite !length_app; simpl; lia).
    rewrite overwrite_app by exact Hp.
    rewrite !length_app, <- !app_assoc. do 2 f_equal. lia.
Qed.

(** The whole life of one chunk on a file that accepts whole writes. *)
Lemma framed_full (s : Sink) (typ : Tag) (lm : option Z) (ds : list (list byte)) :
  full s ->
  Z.of_nat (pos s) + 8 + Z.of_nat (length (concat ds)) < 2 ^ 64 ->
  framed typ lm ds s
  = let P := concat ds in
    let n := Z.of_nat (length P) in
    match lm with
    | Some h =>
        if n =? h then (sink_after s (chunk_bytes h typ P), Ok tt)
        else (sink_after s (u32_to_be_bytes h ++ tag_bytes typ ++ P), Err (Msg n h))
    | None => (sink_after s (chunk_bytes n typ P), Ok tt)
    end.
Proof.
  intros Hf Hb. unfold framed, bind at 1. rewrite begin_full by exact Hf.
  cbv beta iota. unfold bind at 1.
  rewrite write_seq_full by (apply full_sink_after; exact Hf). cbv beta iota.
  rewrite sink_after_app by exact Hf.
  apply finish_after_writes; assumption.
Qed.

Lemma write_chunk_full (s : Sink) (typ : Tag) (d : list byte) :
  full s -> Z.of_nat (pos s) + 8 + Z.of_nat (length d) < 2 ^ 64 ->
  write_chunk typ d s = (sink_after s (chunk_bytes (Z.of_nat (length d)) typ d), Ok tt).
Proof.
  intros Hf Hb. unfold write_chunk, bind at 1. rewrite begin_full by exact Hf.
  cbv beta iota. unfold bind at 1.
  rewrite write_all_cw_full by (apply full_sink_after; exact Hf). cbv beta iota.
  rewrite sink_after_app by exact Hf. cbn [len crc start].
  rewrite finish_after_writes by assumption. cbv zeta iota.
  now rewrite Z.eqb_refl.
Qed.

Lemma idat_loop_full (reads : list (list byte)) (s : Sink) (cw : ChunkWriter) :
  full s -> Forall (fun b => b <> []) reads ->
  idat_loop cw reads s
  = (sink_after s (concat reads),
     Ok (mkChunkWriter (len cw) (crc32.write (crc cw) (concat reads)) (start cw))).
Proof.
  revert s cw. induction reads as [|r reads IH]; intros s cw Hf Hne.
  - simpl. rewrite sink_after_nil, digest_write_nil by exact Hf.
    destruct cw; reflexivity.
  - inversion Hne as [|? ? Hr Hne']; subst.
    cbn [idat_loop concat].
    destruct (length r =? 0)%nat eqn:E.
    { apply Nat.eqb_eq, length_zero_iff_nil in E. contradiction. }
    unfold bind at 1. rewrite write_all_cw_full by exact Hf.
    rewrite IH by (try apply full_sink_after; assumption). simpl.
    rewrite sink_after_app, digest_write_app by exact Hf. reflexivity.
Qed.


(** ** [ZeroReader] *)

Lemma read_loop_spec (buf : list byte) (r : ZeroReader) (num : Z) :
  0 <= at_ r <= count r ->
  let k := Nat.min (length buf) (Z.to_nat (count r - at_ r)) in
  read_loop r buf num
  = (mkZeroReader (count r) (at_ r + Z.of_nat k), repeat x00 k ++ skipn k buf,
     num + Z.of_nat k).
Proof.
  revert r num. induction buf as [|c rest IH]; intros [cnt at0] num Hr;
    cbn [read_loop at_ count length] in *.
  - now rewrite !Z.add_0_r.
  - destruct (at0 =? cnt) eqn:E.
    + apply Z.eqb_eq in E. subst. rewrite Z.sub_diag. cbn. now rewrite !Z.add_0_r.
    + apply Z.eqb_neq in E.
      rewrite IH by (cbn [at_ count]; lia). cbv beta iota zeta.
      replace (Z.to_nat (cnt - at0)) with (S (Z.to_nat (cnt - (at0 + 1)))) by lia.
      rewrite <- Nat.succ_min_distr. cbn [repeat skipn app].
      cbn [count at_]. rewrite Nat2Z.inj_succ. f_equal; [f_equal; f_equal|]; lia.
Qed.

Lemma read_many_spec (sizes : list nat) (r : ZeroReader) (fill : byte) :
  0 <= at_ r <= count r ->
  let m := Nat.min (list_sum sizes) (Z.to_nat (count r - at_ r)) in
  read_many r fill sizes
  = (mkZeroReader (count r) (at_ r + Z.of_nat m), repeat x00 m).
Proof.
  revert r. induction sizes as [|k ks IH]; intros r Hr; simpl.
  - destruct r; simpl. now rewrite Z.add_0_r.
  - unfold read. rewrite read_loop_spec by exact Hr. cbv zeta.
    rewrite IH by (simpl; lia). simpl.
    rewrite repeat_length.
    set (j := Nat.min k (Z.to_nat (count r - at_ r))).
    rewrite Nat2Z.id, firstn_app_exact by (rewrite repeat_length; reflexivity).
    rewrite <- repeat_app.
    set (j' := Nat.min (list_sum ks) (Z.to_nat (count r - (at_ r + Z.of_nat j)))).
    assert (Hm : (j + j')%nat = Nat.min (k + list_sum ks) (Z.to_nat (count r - at_ r)))
      by (unfold j, j'; lia).
    rewrite Hm. f_equal. f_equal. lia.
Qed.

(** ** Reading chunks back *)

Lemma lxor_u32 (a b : Z) :
  0 <= a < 2 ^ 32 -> 0 <= b < 2 ^ 32 -> 0 <= Z.lxor a b < 2 ^ 32.
Proof.
  intros Ha Hb.
  assert (E : Z.lxor a b = Z.lxor a b mod 2 ^ 32).
  { apply Z.bits_inj'. intros n Hn. destruct (Z.lt_ge_cases n 32).
    - rewrite Z.mod_pow2_bits_low by lia. reflexivity.
    - rewrite Z.mod_pow2_bits_high by lia. rewrite Z.lxor_spec.
      rewrite <- (Z.mod_small a (2 ^ 32)), <- (Z.mod_small b (2 ^ 32)) by lia.
      rewrite !Z.mod_pow2_bits_high by lia. reflexivity. }
  rewrite E. apply Z.mod_pos_bound. lia.
Qed.

Lemma table_bit_u32 (x : Z) :
  0 <= x < 2 ^ 32 -> 0 <= crc32.table_bit crc32.IEEE x < 2 ^ 32.
Proof.
  intros Hx. assert (H2 : 0 <= Z.shiftr x 1 < 2 ^ 32).
  { rewrite Z.shiftr_div_pow2 by lia. change (2 ^ 1) with 2.
    pose proof (Z.div_mod x 2 ltac:(lia)). pose proof (Z.mod_pos_bound x 2 ltac:(lia)).
    lia. }
  unfold crc32.table_bit. destruct (Z.land x 1 =? 1).
  - apply lxor_u32; [exact H2|]. unfold crc32.IEEE. lia.
  - exact H2.
Qed.

Lemma fold_ref_u32 (data : list byte) (c : Z) :
  0 <= c < 2 ^ 32 -> 0 <= fold_left crc32_ref_byte data c < 2 ^ 32.
Proof.
  revert c. induction data as [|b data IH]; intros c Hc; simpl; [exact Hc|].
  apply IH. unfold crc32_ref_byte.
  assert (Hx : 0 <= Z.lxor c (zb b) < 2 ^ 32)
    by (apply lxor_u32; [exact Hc | pose proof (zb_range b); lia]).
  generalize (Z.lxor c (zb b)) Hx. clear. intros x Hx.
  generalize 8%nat as k. induction k as [|k IHk]; [exact Hx|].
  rewrite Nat.iter_succ. apply table_bit_u32. exact IHk.
Qed.

Lemma crc32_ref_u32 (data : list byte) : 0 <= crc32_ref data < 2 ^ 32.
Proof.
  unfold crc32_ref. apply lxor_u32; [apply fold_ref_u32|]; lia.
Qed.

Lemma u32_roundtrip (x : Z) :
  0 <= x < 2 ^ 32 -> u32_from_be_bytes (u32_to_be_bytes x) = x.
Proof. intros Hx. rewrite u32_from_to_be_bytes. apply Z.mod_small. exact Hx. Qed.

Lemma parse_chunk_bytes (typ : Tag) (P R : list byte) :
  Z.of_nat (length P) < 2 ^ 32 ->
  parse_chunk (chunk_bytes (Z.of_nat (length P)) typ P ++ R)
  = Some (tag_bytes typ, P, crc32_ref (tag_bytes typ ++ P)).
Proof.
  intros HP. unfold chunk_bytes. rewrite <- !app_assoc.
  set (L := u32_to_be_bytes (Z.of_nat (length P))).
  set (C := u32_to_be_bytes (crc32_ref (tag_bytes typ ++ P))).
  assert (F4 : firstn 4 (L ++ tag_bytes typ ++ P ++ C ++ R) = L)
    by (apply firstn_app_exact; reflexivity).
  assert (S4 : skipn 4 (L ++ tag_bytes typ ++ P ++ C ++ R) = tag_bytes typ ++ P ++ C ++ R)
    by (rewrite skipn_app_exact with (k := 0%nat) by reflexivity; apply skipn_O).
  assert (S8 : skipn 8 (L ++ tag_bytes typ ++ P ++ C ++ R) = P ++ C ++ R).
  { rewrite app_assoc, skipn_app_exact with (k := 0%nat) by reflexivity. apply skipn_O. }
  assert (HL : u32_from_be_bytes L = Z.of_nat (length P)) by (apply u32_roundtrip; lia).
  unfold parse_chunk. cbv zeta. rewrite F4, S4, S8, HL, Nat2Z.id.
  rewrite firstn_app_exact by reflexivity.
  rewrite !length_app. unfold L, C. cbn [length u32_to_be_bytes tag_bytes].
  rewrite (proj2 (Nat.ltb_ge _ 8)) by lia.
  rewrite (proj2 (Nat.ltb_ge (length P + (4 + length R)) (length P + 4))) by lia.
  rewrite firstn_app_exact by reflexivity.
  rewrite skipn_app_exact with (k := 0%nat) by lia.
  rewrite skipn_O, firstn_app_exact by reflexivity.
  rewrite u32_roundtrip by apply crc32_ref_u32. reflexivity.
Qed.

Lemma skipn_sink_after (s : Sink) (X : list byte) :
  full s -> skipn (pos s) (data (sink_after s X)) = X ++ skipn (pos s + length X) (data s).
Proof.
  intros [Hc Hp]. unfold sink_after. cbn [data]. rewrite overwrite_in by exact Hp.
  rewrite skipn_app_exact with (k := 0%nat) by (rewrite length_firstn; lia).
  apply skipn_O.
Qed.

Lemma sink_after_empty (X : list byte) :
  sink_after empty_file X = mkSink X (length X) None.
Proof.
  unfold sink_after, empty_file, overwrite. cbn [data pos cap firstn length repeat app Nat.sub Nat.add].
  rewrite skipn_nil, app_nil_r. reflexivity.
Qed.

Lemma full_empty_file : full empty_file.
Proof. split; [reflexivity | apply Nat.le_0_l]. Qed.

Lemma pos_sink_after (s : Sink) (X : list byte) : pos (sink_after s X) = (pos s + length X)%nat.
Proof. reflexivity. Qed.

Lemma length_chunk_bytes (L : Z) (typ : Tag) (P : list byte) :
  length (chunk_bytes L typ P) = (12 + length P)%nat.
Proof. unfold chunk_bytes. rewrite !length_app. cbn [length u32_to_be_bytes tag_bytes]. lia. Qed.

Lemma bind_ok {A B} (m : M A) (k : A -> M B) (s s' : Sink) (a : A) :
  m s = (s', Ok a) -> bind m k s = k a s'.
Proof. intros H. unfold bind. rewrite H. reflexivity. Qed.

(** The length field of a chunk laid down at the cursor reads back modulo [2^32]. *)
Lemma length_field_after (s : Sink) (L : Z) (typ : Tag) (P : list byte) :
  full s ->
  u32_from_be_bytes (firstn 4 (skipn (pos s) (data (sink_after s (chunk_bytes L typ P)))))
  = L mod 2 ^ 32.
Proof.
  intros Hf. rewrite skipn_sink_after by exact Hf. unfold chunk_bytes.
  rewrite <- !app_assoc, firstn_app_exact by reflexivity.
  apply u32_from_to_be_bytes.
Qed.

(** The checksum field of a chunk laid down at the cursor. *)
Lemma crc_field_after (s : Sink) (L : Z) (typ : Tag) (P : list byte) :
  full s ->
  firstn 4 (skipn (pos s + 8 + length P) (data (sink_after s (chunk_bytes L typ P))))
  = u32_to_be_bytes (crc32_ref (tag_bytes typ ++ P)).
Proof.
  intros Hf. replace (pos s + 8 + length P)%nat with ((8 + length P) + pos s)%nat by lia.
  rewrite <- skipn_skipn, skipn_sink_after by exact Hf. unfold chunk_bytes.
  rewrite <- !app_assoc.
  rewrite (app_assoc (u32_to_be_bytes L) (tag_bytes typ)).
  rewrite (app_assoc (u32_to_be_bytes L ++ tag_bytes typ) P).
  rewrite skipn_app_exact with (k := 0%nat)
    by (rewrite !length_app; cbn [length u32_to_be_bytes tag_bytes]; lia).
  rewrite skipn_O, firstn_app_exact by reflexivity. reflexivity.
Qed.

(** A chunk whose length field reads 0 parses with an empty payload. *)
Lemma parse_chunk_zero_length (typ : Tag) (P R : list byte) :
  exists c, parse_chunk (chunk_bytes 0 typ P ++ R) = Some (tag_bytes typ, [], c).
Proof.
  unfold chunk_bytes. rewrite <- !app_assoc.
  set (C := u32_to_be_bytes (crc32_ref (tag_bytes typ ++ P))).
  set (B := u32_to_be_bytes 0 ++ tag_bytes typ ++ P ++ C ++ R).
  assert (F4 : firstn 4 B = u32_to_be_bytes 0) by (apply firstn_app_exact; reflexivity).
  assert (S4 : skipn 4 B = tag_bytes typ ++ P ++ C ++ R)
    by (unfold B; rewrite skipn_app_exact with (k := 0%nat) by reflexivity; apply skipn_O).
  assert (S8 : skipn 8 B = P ++ C ++ R).
  { unfold B. rewrite app_assoc, skipn_app_exact with (k := 0%nat) by reflexivity.
    apply skipn_O. }
  assert (HB : length B = (8 + length P + 4 + length R)%nat)
    by (unfold B, C; rewrite !length_app; cbn [length u32_to_be_bytes tag_bytes]; lia).
  unfold parse_chunk. cbv zeta. rewrite F4, S4, S8, HB, u32_from_to_be_bytes.
  change (Z.to_nat (as_u32 0)) with 0%nat.
  rewrite (proj2 (Nat.ltb_ge _ 8)) by lia.
  rewrite (proj2 (Nat.ltb_ge (length (P ++ C ++ R)) (0 + 4))) by
    (unfold C; rewrite !length_app; cbn [length u32_to_be_bytes]; lia).
  rewrite firstn_app_exact by reflexivity. eexists. reflexivity.
Qed.

Lemma u32_as_u32_mod (x : Z) : as_u32 (as_u32 x) = x mod 2 ^ 32.
Proof. unfold as_u32. apply Zmod_mod. Qed.

Lemma ihdr_payload_fields (w h : Z) (c : ColorType) (b : BitDepth) :
  firstn 4 (ihdr_payload w h c b) = u32_to_be_bytes (as_u32 w) /\
  firstn 4 (skipn 4 (ihdr_payload w h c b)) = u32_to_be_bytes (as_u32 h).
Proof.
  unfold ihdr_payload, overwrite, u32_to_be_bytes.
  cbn [firstn skipn repeat length app Nat.sub Nat.add]. split; reflexivity.
Qed.

(** * The properties of the specification *)

(** ** C1: [finish] on a [Deferred] chunk *)

(** C1.  On a file that accepts whole writes, for a chunk begun with no
    declared length ([begin typ None]) and fed any sequence of [write_all] calls, [finish] computes the payload length as
    the end cursor minus the start cursor recorded by [begin] minus 8; it seeks
    back to that start (the length field), writes the big-endian length over
    the placeholder, seeks to the cursor it held before the rewrite, and writes
    the big-endian checksum as its last step. *)
Theorem finish_deferred_patches_placeholder (typ : Tag) (ds : list (list byte)) (s : Sink) :
  full s -> Z.of_nat (pos s) + 8 + Z.of_nat (length (concat ds)) < 2 ^ 64 ->
  exists cw s',
    (cw0 <- begin typ None ;; write_seq cw0 ds) s = (s', Ok cw) /\
    len cw = None /\
    start cw = Z.of_nat (pos s) /\
    Z.of_nat (pos s') - start cw - 8 = Z.of_nat (length (concat ds)) /\
    finish cw s'
    = (let s1 := mkSink (data s') (Z.to_nat (start cw)) None in
       let s2 := sink_after s1 (u32_to_be_bytes (as_u32 (Z.of_nat (pos s') - start cw - 8))) in
       let s3 := mkSink (data s2) (pos s') None in
       (sink_after s3 (u32_to_be_bytes (crc32.sum32 (crc cw))), Ok tt)).
Proof.
  intros Hf Hb.
  assert (Hf1 : full (sink_after s (u32_to_be_bytes (as_u32 (unwrap_or None 0)) ++ tag_bytes typ)))
    by (apply full_sink_after; exact Hf).
  eexists. eexists. split.
  { rewrite (bind_ok _ _ _ _ _ (begin_full s typ None Hf)).
    rewrite write_seq_full by exact Hf1. reflexivity. }
  cbn [len start crc].
  assert (Hpos : pos (sink_after (sink_after s (u32_to_be_bytes (as_u32 (unwrap_or None 0))
                                                ++ tag_bytes typ)) (concat ds))
                 = (pos s + 8 + length (concat ds))%nat)
    by (rewrite !pos_sink_after, length_app; reflexivity).
  split; [reflexivity|]. split; [reflexivity|]. split; [rewrite Hpos; lia|].
  apply finish_deferred.
  - apply full_sink_after. exact Hf1.
  - reflexivity.
  - cbn [start]. lia.
  - cbn [start]. rewrite Hpos. lia.
Qed.

Lemma finish_deferred_patches_placeholder_witness :
  exists cw s',
    (cw0 <- begin IEND None ;; write_seq cw0 [[x01]; [x02]]) empty_file = (s', Ok cw) /\
    start cw = 0 /\ Z.of_nat (pos s') - start cw - 8 = 2.
Proof.
  assert (Hf : full empty_file) by (split; [reflexivity | cbn; lia]).
  assert (Hb : Z.of_nat (pos empty_file) + 8 + Z.of_nat (length (concat [[x01]; [x02]])) < 2 ^ 64)
    by (vm_compute; reflexivity).
  destruct (finish_deferred_patches_placeholder IEND [[x01]; [x02]] empty_file Hf Hb)
    as (cw & s' & H1 & _ & H3 & H4 & _).
  exists cw, s'. split; [exact H1 | split; [exact H3 | exact H4]].
Defined.

(** ** C2: [finish] on a [Known] chunk *)

(** C2.  On a file that accepts whole writes, a chunk begun with a declared
    length [n] and fed the blocks [ds]:
    when the payload written is not [n] bytes long, the whole sequence fails
    with the length-mismatch error [Msg] (not an I/O error), and the file holds
    the length field, the type and the payload but no checksum; when it is [n]
    bytes long, it succeeds with the complete chunk. *)
Theorem finish_known_length_mismatch (typ : Tag) (n : Z) (ds : list (list byte)) (s : Sink) :
  full s -> Z.of_nat (pos s) + 8 + Z.of_nat (length (concat ds)) < 2 ^ 64 ->
  let P := concat ds in
  (Z.of_nat (length P) <> n ->
   framed typ (Some n) ds s
   = (sink_after s (u32_to_be_bytes n ++ tag_bytes typ ++ P), Err (Msg (Z.of_nat (length P)) n))) /\
  (Z.of_nat (length P) = n ->
   framed typ (Some n) ds s = (sink_after s (chunk_bytes n typ P), Ok tt)).
Proof.
  intros Hf Hb P. subst P. rewrite framed_full by assumption. cbv zeta. split; intros H.
  - rewrite (proj2 (Z.eqb_neq _ _) H). reflexivity.
  - rewrite (proj2 (Z.eqb_eq _ _) H). reflexivity.
Qed.

Lemma finish_known_length_mismatch_witness :
  snd (framed IHDR (Some 10) [repeat x00 9] empty_file) = Err (Msg 9 10)
  /\ snd (framed IHDR (Some 10) [repeat x00 4; repeat x00 6] empty_file) = Ok tt.
Proof.
  assert (Hf : full empty_file) by (split; [reflexivity | cbn; lia]).
  split.
  - pose proof (finish_known_length_mismatch IHDR 10 [repeat x00 9] empty_file Hf
                  ltac:(vm_compute; reflexivity)) as H.
    cbv zeta in H. destruct H as [H _]. rewrite H by (cbn; lia). reflexivity.
  - pose proof (finish_known_length_mismatch IHDR 10 [repeat x00 4; repeat x00 6] empty_file Hf
                  ltac:(vm_compute; reflexivity)) as H.
    cbv zeta in H. destruct H as [_ H]. rewrite H by reflexivity. reflexivity.
Defined.

(** ** C3: what the checksum covers *)

(** C3.  On a file that accepts whole writes, the checksum field [finish] writes, 8 bytes plus the payload after the
    start of the chunk, is the CRC-32 of the type followed by the payload: the
    length field takes no part in it.  So a [Known] chunk with the right length
    and a [Deferred] chunk with the same type and payload, whose length fields
    differ when [begin] writes them (the length and 0), end with the same
    checksum field. *)
Theorem checksum_over_type_and_payload (typ : Tag) (ds : list (list byte)) (s : Sink) :
  full s -> Z.of_nat (pos s) + 8 + Z.of_nat (length (concat ds)) < 2 ^ 64 ->
  let P := concat ds in
  let crc_field (lm : option Z) :=
    firstn 4 (skipn (pos s + 8 + length P) (data (fst (framed typ lm ds s)))) in
  snd (framed typ None ds s) = Ok tt /\
  snd (framed typ (Some (Z.of_nat (length P))) ds s) = Ok tt /\
  crc_field None = u32_to_be_bytes (crc32_ref (tag_bytes typ ++ P)) /\
  crc_field (Some (Z.of_nat (length P))) = u32_to_be_bytes (crc32_ref (tag_bytes typ ++ P)) /\
  crc_field None = crc_field (Some (Z.of_nat (length P))).
Proof.
  intros Hf Hb P crc_field.
  assert (ED : framed typ None ds s
               = (sink_after s (chunk_bytes (Z.of_nat (length P)) typ P), Ok tt))
    by (rewrite framed_full by assumption; reflexivity).
  assert (EK : framed typ (Some (Z.of_nat (length P))) ds s
               = (sink_after s (chunk_bytes (Z.of_nat (length P)) typ P), Ok tt))
    by (rewrite framed_full by assumption; cbv zeta; rewrite Z.eqb_refl; reflexivity).
  assert (C : crc_field None = u32_to_be_bytes (crc32_ref (tag_bytes typ ++ P)) /\
              crc_field (Some (Z.of_nat (length P)))
              = u32_to_be_bytes (crc32_ref (tag_bytes typ ++ P))).
  { unfold crc_field. rewrite ED, EK. cbn [fst]. split; apply crc_field_after; exact Hf. }
  destruct C as [C1 C2].
  split; [rewrite ED; reflexivity|]. split; [rewrite EK; reflexivity|].
  split; [exact C1|]. split; [exact C2|]. rewrite C1, C2. reflexivity.
Qed.

Lemma checksum_over_type_and_payload_witness :
  firstn 4 (skipn 11 (data (fst (framed IEND None [[x01]; [x02; x03]] empty_file))))
  = firstn 4 (skipn 11 (data (fst (framed IEND (Some 3) [[x01]; [x02; x03]] empty_file)))).
Proof.
  assert (Hf : full empty_file) by (split; [reflexivity | cbn; lia]).
  pose proof (checksum_over_type_and_payload IEND [[x01]; [x02; x03]] empty_file Hf
                ltac:(vm_compute; reflexivity)) as H.
  cbv zeta in H. destruct H as (_ & _ & _ & _ & H). exact H.
Defined.

(** ** C4: [write_chunk] and reading the chunk back *)

(** C4 (with its precondition).  For a payload [d] shorter than [2^32] bytes,
    [write_chunk typ d] succeeds and lays down, at the cursor, exactly the
    big-endian length of [d], the type, [d] and the big-endian CRC-32 of type
    and payload; an independent reader of those bytes gets back the type,
    [d] itself and the reference CRC-32 of type and payload. *)
Theorem write_chunk_roundtrip (typ : Tag) (d : list byte) (s : Sink) :
  full s -> Z.of_nat (pos s) + 8 + Z.of_nat (length d) < 2 ^ 64 ->
  Z.of_nat (length d) < 2 ^ 32 ->
  let out := skipn (pos s) (data (fst (write_chunk typ d s))) in
  snd (write_chunk typ d s) = Ok tt /\
  firstn (12 + length d) out = chunk_bytes (Z.of_nat (length d)) typ d /\
  parse_chunk out = Some (tag_bytes typ, d, crc32_ref (tag_bytes typ ++ d)).
Proof.
  intros Hf Hb Hd out. subst out. rewrite write_chunk_full by assumption.
  cbn [fst snd]. rewrite skipn_sink_after by exact Hf.
  split; [reflexivity|]. split.
  - apply firstn_app_exact. symmetry. apply length_chunk_bytes.
  - apply parse_chunk_bytes. exact Hd.
Qed.

Lemma write_chunk_roundtrip_witness :
  parse_chunk (data (fst (write_chunk IHDR [x01; x02; x03] empty_file)))
  = Some (tag_bytes IHDR, [x01; x02; x03], crc32_ref (tag_bytes IHDR ++ [x01; x02; x03])).
Proof.
  assert (Hf : full empty_file) by (split; [reflexivity | cbn; lia]).
  pose proof (write_chunk_roundtrip IHDR [x01; x02; x03] empty_file Hf
                ltac:(vm_compute; reflexivity) ltac:(vm_compute; reflexivity)) as H.
  cbv zeta in H. destruct H as (_ & _ & H). exact H.
Defined.

(** C4, a payload of [2^32] bytes: [write_chunk] succeeds, but the length
    field it writes is [u32] 0, and a reader of the bytes gets an empty
    payload instead of the [2^32] bytes written. *)
Lemma write_chunk_4GiB_length_wraps :
  let d := repeat x00 (Z.to_nat (2 ^ 32)) in
  Z.of_nat (length d) = 2 ^ 32 /\
  snd (write_chunk IDAT d empty_file) = Ok tt /\
  firstn 4 (data (fst (write_chunk IDAT d empty_file))) = [x00; x00; x00; x00] /\
  exists c, parse_chunk (data (fst (write_chunk IDAT d empty_file)))
            = Some (tag_bytes IDAT, [], c).
Proof.
  intros d.
  assert (HdZ : Z.of_nat (length d) = 2 ^ 32)
    by (unfold d; rewrite repeat_length; apply Z2Nat.id; lia).
  clearbody d.
  rewrite write_chunk_full by first [exact full_empty_file | cbn [pos empty_file]; lia].
  rewrite HdZ.
  assert (Hc : chunk_bytes (2 ^ 32) IDAT d = chunk_bytes 0 IDAT d)
    by (unfold chunk_bytes; rewrite (u32_to_be_bytes_mod (2 ^ 32) 0) by reflexivity;
        reflexivity).
  rewrite Hc. cbn [fst snd]. rewrite sink_after_empty. cbn [data].
  split; [reflexivity|]. split; [reflexivity|]. split.
  - unfold chunk_bytes. rewrite firstn_app_exact by reflexivity. reflexivity.
  - rewrite <- (app_nil_r (chunk_bytes 0 IDAT d)). apply parse_chunk_zero_length.
Qed.

(** ** C5: a [Deferred] chunk written in pieces *)

(** C5 (the length read modulo [2^32]).  A [Deferred] chunk fed its payload as
    any sequence of blocks leaves the same file as one fed it in a single
    block: the complete chunk of the concatenated payload.  Its patched length
    field reads back as the payload length modulo [2^32], which is the payload
    length itself below [2^32] bytes. *)
Theorem deferred_split_invariant (typ : Tag) (ds : list (list byte)) (s : Sink) :
  full s -> Z.of_nat (pos s) + 8 + Z.of_nat (length (concat ds)) < 2 ^ 64 ->
  let P := concat ds in
  framed typ None ds s = framed typ None [P] s /\
  framed typ None ds s = (sink_after s (chunk_bytes (Z.of_nat (length P)) typ P), Ok tt) /\
  u32_from_be_bytes (firstn 4 (skipn (pos s) (data (fst (framed typ None ds s)))))
    = Z.of_nat (length P) mod 2 ^ 32 /\
  (Z.of_nat (length P) < 2 ^ 32 ->
   u32_from_be_bytes (firstn 4 (skipn (pos s) (data (fst (framed typ None ds s)))))
   = Z.of_nat (length P)).
Proof.
  intros Hf Hb P.
  assert (Hcat : concat [P] = P) by (cbn [concat]; apply app_nil_r).
  assert (E : framed typ None ds s
              = (sink_after s (chunk_bytes (Z.of_nat (length P)) typ P), Ok tt))
    by (rewrite framed_full by assumption; reflexivity).
  assert (E1 : framed typ None [P] s
               = (sink_after s (chunk_bytes (Z.of_nat (length P)) typ P), Ok tt)).
  { rewrite framed_full by (try rewrite Hcat; assumption). cbv beta iota zeta.
    rewrite Hcat. reflexivity. }
  split; [rewrite E, E1; reflexivity|]. split; [exact E|].
  rewrite E. cbn [fst]. rewrite length_field_after by exact Hf.
  split; [reflexivity|]. intros Hlt. apply Z.mod_small. lia.
Qed.

Lemma deferred_split_invariant_witness :
  framed IEND None [[x01]; []; [x02; x03]] empty_file
  = framed IEND None [[x01; x02; x03]] empty_file.
Proof.
  assert (Hf : full empty_file) by (split; [reflexivity | cbn; lia]).
  pose proof (deferred_split_invariant IEND [[x01]; []; [x02; x03]] empty_file Hf
                ltac:(vm_compute; reflexivity)) as H.
  cbv zeta in H. destruct H as (H & _). exact H.
Defined.

(** C5, a payload of [2^32] bytes: the [Deferred] chunk is finished without
    error, and its patched length field reads 0. *)
Lemma deferred_4GiB_length_patches_to_zero :
  let P := repeat x00 (Z.to_nat (2 ^ 32)) in
  Z.of_nat (length P) = 2 ^ 32 /\
  snd (framed IDAT None [P] empty_file) = Ok tt /\
  u32_from_be_bytes (firstn 4 (data (fst (framed IDAT None [P] empty_file)))) = 0.
Proof.
  intros P.
  assert (HdZ : Z.of_nat (length P) = 2 ^ 32)
    by (unfold P; rewrite repeat_length; apply Z2Nat.id; lia).
  clearbody P.
  assert (Hcat : concat [P] = P) by (cbn [concat]; apply app_nil_r).
  rewrite framed_full
    by first [exact full_empty_file | rewrite Hcat, HdZ; cbn [pos empty_file]; lia].
  cbv beta iota zeta. rewrite Hcat, HdZ. cbn [fst snd].
  split; [reflexivity|]. split; [reflexivity|].
  pose proof (length_field_after empty_file (2 ^ 32) IDAT P full_empty_file) as H.
  change (pos empty_file) with 0%nat in H. rewrite skipn_O in H.
  rewrite H. reflexivity.
Qed.

(** ** C6: [ZeroReader] *)

(** C6.  A [ZeroReader::new(N)] read through buffers of any sizes yields zero
    bytes only, [min(total buffer size, N)] of them; once the buffers total
    at least [N] bytes it has yielded exactly [N] zero bytes and is exhausted:
    every further [read] returns 0 and leaves the reader and the buffer as
    they are. *)
Theorem zero_reader_exhaustion (N : Z) (fill : byte) (sizes : list nat) :
  0 <= N ->
  let r := fst (read_many (ZeroReader_new N) fill sizes) in
  snd (read_many (ZeroReader_new N) fill sizes)
    = repeat x00 (Nat.min (list_sum sizes) (Z.to_nat N)) /\
  ((Z.to_nat N <= list_sum sizes)%nat ->
   snd (read_many (ZeroReader_new N) fill sizes) = repeat x00 (Z.to_nat N) /\
   forall buf, read r buf = (r, buf, 0)).
Proof.
  intros HN r. subst r. rewrite read_many_spec by (cbn; lia).
  cbn [fst snd count at_ ZeroReader_new]. rewrite Z.sub_0_r.
  split; [reflexivity|]. intros Hle.
  replace (Nat.min (list_sum sizes) (Z.to_nat N)) with (Z.to_nat N) by lia.
  rewrite Z2Nat.id, Z.add_0_l by exact HN.
  split; [reflexivity|]. intros [|c rest]; unfold read; cbn [read_loop at_ count].
  - reflexivity.
  - rewrite Z.eqb_refl. reflexivity.
Qed.

Lemma zero_reader_exhaustion_witness :
  snd (read_many (ZeroReader_new 3) x07 [2; 0; 5]%nat) = repeat x00 3
  /\ read (fst (read_many (ZeroReader_new 3) x07 [2; 0; 5]%nat)) [x07; x07]
     = (fst (read_many (ZeroReader_new 3) x07 [2; 0; 5]%nat), [x07; x07], 0).
Proof.
  pose proof (zero_reader_exhaustion 3 x07 [2; 0; 5]%nat ltac:(lia)) as H.
  cbv zeta in H. destruct H as [_ H].
  destruct (H ltac:(cbn; lia)) as [H1 H2]. split; [exact H1 | apply H2].
Defined.

(** ** C7: a 2x2 1-bit grayscale image *)

(** C7.  [render] of a 2x2 image at 1-bit grayscale writes, on a new file and
    in this order: the 8-byte signature; an IHDR chunk with length field 13
    and payload [00 00 00 02 00 00 00 02 01 00 00 00 00]; an IDAT chunk whose
    payload is what the compressor makes of the four raw bytes [00 00 00 00]
    (so it inflates to them); an IEND chunk with length field 0 and no
    payload; every checksum is the CRC-32 of the chunk's type and payload.
    The compressor is any one whose reads are non-empty and total less than
    [2^32] bytes. *)
Theorem render_2x2_gray1 (zlib_reads : list byte -> list (list byte)) :
  Forall (fun b => b <> []) (zlib_reads (repeat x00 4)) ->
  Z.of_nat (length (concat (zlib_reads (repeat x00 4)))) < 2 ^ 32 ->
  let Zd := concat (zlib_reads (repeat x00 4)) in
  let out := signature
             ++ chunk_bytes 13 IHDR (bytes_of [0; 0; 0; 2; 0; 0; 0; 2; 1; 0; 0; 0; 0])
             ++ chunk_bytes (Z.of_nat (length Zd)) IDAT Zd
             ++ chunk_bytes 0 IEND [] in
  render zlib_reads 2 2 Grayscale One empty_file = (mkSink out (length out) None, Ok tt).
Proof.
  intros Hne Hlen Zd out.
  assert (HZd : Z.of_nat (length Zd) < 2 ^ 32) by exact Hlen.
  set (hdr := bytes_of [0; 0; 0; 2; 0; 0; 0; 2; 1; 0; 0; 0; 0]).
  set (s1 := sink_after empty_file signature).
  set (s2 := sink_after s1 (chunk_bytes 13 IHDR hdr)).
  assert (F1 : full s1) by (apply full_sink_after, full_empty_file).
  assert (F2 : full s2) by (apply full_sink_after, F1).
  assert (P2 : pos s2 = 33%nat) by (unfold s2, s1; rewrite !pos_sink_after, length_chunk_bytes; reflexivity).
  assert (H1 : write_all sink_write tt signature empty_file = (s1, Ok tt))
    by (apply write_all_sink_full, full_empty_file).
  assert (H2 : write_chunk IHDR (ihdr_payload 2 2 Grayscale One) s1 = (s2, Ok tt)).
  { replace (ihdr_payload 2 2 Grayscale One) with hdr by (vm_compute; reflexivity).
    rewrite write_chunk_full by first [exact F1 | unfold s1; rewrite pos_sink_after; cbn; lia].
    reflexivity. }
  set (hd := u32_to_be_bytes (as_u32 (unwrap_or None 0)) ++ tag_bytes IDAT).
  set (cw0 := mkChunkWriter None (crc32.write (crc32.new crc32.IEEE) (tag_bytes IDAT))
                            (Z.of_nat (pos s2))).
  assert (H3 : begin IDAT None s2 = (sink_after s2 hd, Ok cw0)) by (apply begin_full, F2).
  assert (H4 : idat_loop cw0 (zlib_reads (repeat x00 4)) (sink_after s2 hd)
               = (sink_after s2 (hd ++ Zd),
                  Ok (mkChunkWriter None (crc32.write (crc32.write (crc32.new crc32.IEEE)
                                                        (tag_bytes IDAT)) Zd)
                                    (Z.of_nat (pos s2))))).
  { rewrite idat_loop_full by first [exact Hne | apply full_sink_after, F2].
    rewrite sink_after_app by exact F2. reflexivity. }
  set (s5 := sink_after s2 (chunk_bytes (Z.of_nat (length Zd)) IDAT Zd)).
  assert (H5 : finish (mkChunkWriter None (crc32.write (crc32.write (crc32.new crc32.IEEE)
                                                        (tag_bytes IDAT)) Zd)
                                    (Z.of_nat (pos s2))) (sink_after s2 (hd ++ Zd))
               = (s5, Ok tt)).
  { unfold hd. rewrite finish_after_writes by first [exact F2 | rewrite P2; lia].
    reflexivity. }
  assert (F5 : full s5) by (apply full_sink_after, F2).
  assert (H6 : write_chunk IEND [] s5 = (sink_after s5 (chunk_bytes 0 IEND []), Ok tt)).
  { rewrite write_chunk_full by first [exact F5 | unfold s5; rewrite pos_sink_after, length_chunk_bytes, P2;
                                  change (length (@nil byte)) with 0%nat; lia].
    reflexivity. }
  unfold render.
  rewrite (bind_ok _ _ _ _ _ H1), (bind_ok _ _ _ _ _ H2).
  change (Z.to_nat ((raw_row_length (as_u32 2) Grayscale One * 2) mod 2 ^ 64)) with 4%nat.
  rewrite (bind_ok _ _ _ _ _ H3), (bind_ok _ _ _ _ _ H4), (bind_ok _ _ _ _ _ H5).
  rewrite H6. unfold s5, s2, s1.
  repeat (rewrite sink_after_app by (repeat apply full_sink_after; exact full_empty_file)).
  rewrite sink_after_empty. unfold out. rewrite <- ?app_assoc. reflexivity.
Qed.

Lemma render_2x2_gray1_witness :
  snd (render stored_zlib 2 2 Grayscale One empty_file) = Ok tt.
Proof.
  assert (Hne : Forall (fun b => b <> []) (stored_zlib (repeat x00 4)))
    by (vm_compute; constructor; [discriminate | constructor]).
  pose proof (render_2x2_gray1 stored_zlib Hne ltac:(vm_compute; reflexivity)) as H.
  cbv zeta in H. rewrite H. reflexivity.
Defined.

(** ** C8: argument failures *)

(** C8 (what [run] rejects).  When the output path is missing or a size flag
    does not convert to a [usize], [run] fails with the docopt error before
    [File::create]: no file exists afterwards.  A size value is refused
    exactly when it is not blank (empty or only whitespace, which docopt reads
    as 0) and [usize::from_str] refuses it.  Every size that converts is
    accepted as it is: [File::create] is called, and when it succeeds
    [render] runs on the new empty file, with no further validation of the
    sizes; when it fails, its I/O error is returned and no file is made. *)
Theorem run_rejects_unparsable_args (zlib_reads : list byte -> list (list byte))
    (create : option IoError) (outfile width height : option String.string) :
  ((outfile = None \/ flag_value width = None \/ flag_value height = None) ->
   run zlib_reads create outfile width height = (None, Err DocoptError)) /\
  (forall s, flag_value (Some s) = None <-> trim_is_empty s = false /\ parse_usize s = None) /\
  (forall w h, outfile <> None -> flag_value width = Some w -> flag_value height = Some h ->
   (forall e, create = Some e -> run zlib_reads create outfile width height = (None, Err (IO e))) /\
   (create = None ->
    run zlib_reads create outfile width height
    = (Some (fst (render zlib_reads w h Grayscale One empty_file)),
       snd (render zlib_reads w h Grayscale One empty_file)))).
Proof.
  split; [|split].
  - intros [H | [H | H]]; unfold run; rewrite H.
    + reflexivity.
    + destruct outfile; reflexivity.
    + destruct outfile, (flag_value width); reflexivity.
  - intros s. unfold flag_value, docopt_usize.
    destruct (trim_is_empty s); split.
    + discriminate.
    + intros [H _]. discriminate.
    + intros H. split; [reflexivity | exact H].
    + intros [_ H]. exact H.
  - intros w h Ho Hw Hh. unfold run. rewrite Hw, Hh.
    destruct outfile as [o|]; [|congruence]. split.
    + intros e ->. reflexivity.
    + intros ->. destruct (render zlib_reads w h Grayscale One empty_file). reflexivity.
Qed.

(** C8, sizes no PNG allows: [--width 0 --height 0], a width of [2^32], and
    an empty width with a blank height ([--width= --height=' '], read as 0)
    are not rejected; the file is created and receives a complete image
    whose IHDR width field is 0. *)
Lemma run_accepts_zero_size :
  let r := run stored_zlib None (Some "out.png"%string) (Some "0"%string) (Some "0"%string) in
  let r' := run stored_zlib None (Some "out.png"%string) (Some "4294967296"%string)
                (Some "1"%string) in
  let r'' := run stored_zlib None (Some "out.png"%string) (Some ""%string) (Some " "%string) in
  snd r = Ok tt /\
  option_map (fun f => firstn 33 (data f)) (fst r)
  = Some (signature ++ chunk_bytes 13 IHDR (bytes_of [0; 0; 0; 0; 0; 0; 0; 0; 1; 0; 0; 0; 0])) /\
  snd r' = Ok tt /\
  option_map (fun f => firstn 33 (data f)) (fst r')
  = Some (signature ++ chunk_bytes 13 IHDR (bytes_of [0; 0; 0; 0; 0; 0; 0; 1; 1; 0; 0; 0; 0])) /\
  snd r'' = Ok tt /\
  option_map (fun f => firstn 33 (data f)) (fst r'')
  = Some (signature ++ chunk_bytes 13 IHDR (bytes_of [0; 0; 0; 0; 0; 0; 0; 0; 1; 0; 0; 0; 0])).
Proof. vm_compute. repeat split. Qed.

(** ** C9: short writes *)

(** C9.  [ChunkWriter::write] on a file that accepts at most [k] bytes per
    call writes [min(k, len)] bytes and returns that count, but folds the whole
    buffer into the checksum.  On a file that accepts whole buffers,
    [write_all] writes exactly the buffer and the checksum covers exactly it.
    On a file that accepts one byte per call, [write_chunk IEND [01 02]]
    succeeds and the file holds the payload [01 02], but the checksum field is
    not the CRC-32 of type and payload ([write_all] retries with the tail,
    which is folded in again). *)
Theorem cw_write_folds_whole_buffer (cw : ChunkWriter) (d : list byte) :
  (forall s k, cap s = Some k ->
   cw_write cw d s
   = (mkSink (overwrite (data s) (pos s) (firstn (Nat.min k (length d)) d))
             (pos s + Nat.min k (length d)) (Some k),
      Ok (mkChunkWriter (len cw) (crc32.write (crc cw) d) (start cw), Nat.min k (length d)))) /\
  (forall s, full s ->
   write_all cw_write cw d s
   = (sink_after s d, Ok (mkChunkWriter (len cw) (crc32.write (crc cw) d) (start cw)))) /\
  (let r := write_chunk IEND [x01; x02] (mkSink [] 0 (Some 1%nat)) in
   snd r = Ok tt /\
   firstn 2 (skipn 8 (data (fst r))) = [x01; x02] /\
   firstn 4 (skipn 10 (data (fst r))) <> u32_to_be_bytes (crc32_ref (tag_bytes IEND ++ [x01; x02]))).
Proof.
  split; [|split].
  - intros s k Hk. unfold cw_write, bind, sink_write, ret. rewrite Hk. reflexivity.
  - intros s Hf. apply write_all_cw_full. exact Hf.
  - vm_compute. split; [reflexivity|]. split; [reflexivity|]. intros H. discriminate H.
Qed.

(** ** C10: length fields are [u32] *)

(** C10.  Every length field is the length modulo [2^32], with no error:
    [begin] writes the declared length as [u32]; [write_chunk] of any payload
    (below the [u64] cursor limit) succeeds with a length field reading the
    payload length modulo [2^32]; a [Deferred] chunk is patched the same way;
    and the IHDR payload holds the width and the height modulo [2^32]. *)
Theorem length_fields_wrap_mod_2_32 :
  (forall typ lm s, full s ->
   fst (begin typ lm s)
   = sink_after s (u32_to_be_bytes (as_u32 (unwrap_or lm 0)) ++ tag_bytes typ) /\
   u32_from_be_bytes (firstn 4 (skipn (pos s) (data (fst (begin typ lm s)))))
   = unwrap_or lm 0 mod 2 ^ 32) /\
  (forall typ d s, full s -> Z.of_nat (pos s) + 8 + Z.of_nat (length d) < 2 ^ 64 ->
   snd (write_chunk typ d s) = Ok tt /\
   u32_from_be_bytes (firstn 4 (skipn (pos s) (data (fst (write_chunk typ d s)))))
   = Z.of_nat (length d) mod 2 ^ 32) /\
  (forall typ ds s, full s -> Z.of_nat (pos s) + 8 + Z.of_nat (length (concat ds)) < 2 ^ 64 ->
   snd (framed typ None ds s) = Ok tt /\
   u32_from_be_bytes (firstn 4 (skipn (pos s) (data (fst (framed typ None ds s)))))
   = Z.of_nat (length (concat ds)) mod 2 ^ 32) /\
  (forall w h c b,
   u32_from_be_bytes (firstn 4 (ihdr_payload w h c b)) = w mod 2 ^ 32 /\
   u32_from_be_bytes (firstn 4 (skipn 4 (ihdr_payload w h c b))) = h mod 2 ^ 32).
Proof.
  split; [|split; [|split]].
  - intros typ lm s Hf. rewrite begin_full by exact Hf. cbn [fst].
    split; [reflexivity|]. rewrite skipn_sink_after by exact Hf.
    rewrite <- app_assoc, firstn_app_exact by reflexivity.
    rewrite u32_from_to_be_bytes. apply u32_as_u32_mod.
  - intros typ d s Hf Hb. rewrite write_chunk_full by assumption. cbn [fst snd].
    split; [reflexivity|]. apply length_field_after. exact Hf.
  - intros typ ds s Hf Hb. rewrite framed_full by assumption. cbn [fst snd].
    split; [reflexivity|]. apply length_field_after. exact Hf.
  - intros w h c b. destruct (ihdr_payload_fields w h c b) as [Hw Hh].
    rewrite Hw, Hh, !u32_from_to_be_bytes, !u32_as_u32_mod. split; reflexivity.
Qed.

(** * Further properties of the code *)

(** ** Files that take at most [k] bytes per write *)

Lemma sink_after_nil_pos (s : Sink) :
  (pos s <= length (data s))%nat -> sink_after s [] = s.
Proof.
  intros Hp. destruct s as [d p c]. unfold sink_after; simpl in *.
  rewrite overwrite_in by exact Hp. simpl. rewrite Nat.add_0_r, firstn_skipn.
  reflexivity.
Qed.

Lemma sink_after_app_pos (s : Sink) (a b : list byte) :
  (pos s <= length (data s))%nat -> sink_after (sink_after s a) b = sink_after s (a ++ b).
Proof.
  intros Hp. unfold sink_after; simpl.
  rewrite overwrite_app by exact Hp. rewrite length_app. f_equal. lia.
Qed.

Lemma pos_le_sink_after (s : Sink) (X : list byte) :
  (pos s <= length (data s))%nat -> (pos (sink_after s X) <= length (data (sink_after s X)))%nat.
Proof.
  intros Hp. unfold sink_after; simpl. rewrite length_overwrite_in by exact Hp. lia.
Qed.

Lemma skipn_min_length (k : nat) (buf : list byte) :
  skipn (Nat.min k (length buf)) buf = skipn k buf.
Proof.
  destruct (Nat.le_ge_cases k (length buf)).
  - now rewrite Nat.min_l.
  - rewrite Nat.min_r by exact H. rewrite !skipn_all2 by lia. reflexivity.
Qed.

Lemma write_all_sink_cap (k : nat) (fuel : nat) (buf : list byte) (s : Sink) :
  cap s = Some k -> (0 < k)%nat -> (pos s <= length (data s))%nat ->
  (length buf <= fuel)%nat ->
  write_all_fuel sink_write fuel tt buf s = (sink_after s buf, Ok tt).
Proof.
  revert buf s. induction fuel as [|f IH]; intros buf s Hc Hk Hp Hl.
  - destruct buf; [|simpl in Hl; lia]. simpl. now rewrite sink_after_nil_pos.
  - destruct buf as [|b rest]; [simpl; now rewrite sink_after_nil_pos|].
    cbn [write_all_fuel]. unfold bind, sink_write. cbv beta zeta. rewrite Hc. cbv beta iota.
    set (buf := b :: rest) in *.
    set (n := Nat.min k (length buf)).
    assert (Hn : (0 < n)%nat) by (unfold n, buf; cbn [length]; lia).
    destruct (n =? 0)%nat eqn:E; [apply Nat.eqb_eq in E; lia|].
    assert (Hs : mkSink (overwrite (data s) (pos s) (firstn n buf)) (pos s + n) (Some k)
                 = sink_after s (firstn n buf)).
    { unfold sink_after. rewrite Hc, length_firstn. f_equal. f_equal. lia. }
    rewrite Hs, IH.
    + rewrite sink_after_app_pos by exact Hp. now rewrite firstn_skipn.
    + exact Hc.
    + exact Hk.
    + apply pos_le_sink_after. exact Hp.
    + rewrite length_skipn. lia.
Qed.

Lemma write_all_cw_cap (k : nat) (fuel : nat) (cw : ChunkWriter) (buf : list byte) (s : Sink) :
  cap s = Some k -> (0 < k)%nat -> (pos s <= length (data s))%nat ->
  (length buf <= fuel)%nat ->
  write_all_fuel cw_write fuel cw buf s
  = (sink_after s buf,
     Ok (mkChunkWriter (len cw) (crc32.write (crc cw) (concat (offered k fuel buf))) (start cw))).
Proof.
  revert cw buf s. induction fuel as [|f IH]; intros cw buf s Hc Hk Hp Hl.
  - destruct buf; [|simpl in Hl; lia]. simpl. rewrite sink_after_nil_pos by exact Hp.
    rewrite digest_write_nil. destruct cw; reflexivity.
  - destruct buf as [|b rest].
    { simpl. rewrite sink_after_nil_pos, digest_write_nil by exact Hp. destruct cw; reflexivity. }
    cbn [write_all_fuel offered].
    unfold bind at 1, cw_write, bind, sink_write, ret. cbv beta zeta. rewrite Hc. cbv beta iota.
    set (buf := b :: rest) in *.
    set (n := Nat.min k (length buf)).
    assert (Hn : (0 < n)%nat) by (unfold n, buf; cbn [length]; lia).
    destruct (n =? 0)%nat eqn:E; [apply Nat.eqb_eq in E; lia|].
    assert (Hs : mkSink (overwrite (data s) (pos s) (firstn n buf)) (pos s + n) (Some k)
                 = sink_after s (firstn n buf)).
    { unfold sink_after. rewrite Hc, length_firstn. f_equal. f_equal. lia. }
    rewrite Hs, IH.
    + rewrite sink_after_app_pos by exact Hp. rewrite firstn_skipn.
      cbn [len crc start concat]. rewrite digest_write_app.
      unfold n. rewrite skipn_min_length. reflexivity.
    + exact Hc.
    + exact Hk.
    + apply pos_le_sink_after. exact Hp.
    + rewrite length_skipn. lia.
Qed.

Lemma offered_short (k fuel : nat) (buf : list byte) :
  (length buf <= k)%nat -> (0 < fuel)%nat -> concat (offered k fuel buf) = buf.
Proof.
  intros Hk Hf. destruct fuel as [|f]; [lia|].
  destruct buf as [|b rest]; [reflexivity|]. cbn [offered concat].
  rewrite skipn_all2 by exact Hk. destruct f; cbn [offered concat]; apply app_nil_r.
Qed.

Lemma begin_cap (k : nat) (s : Sink) (typ : Tag) (lm : option Z) :
  cap s = Some k -> (0 < k)%nat -> (pos s <= length (data s))%nat ->
  begin typ lm s
  = (sink_after s (u32_to_be_bytes (as_u32 (unwrap_or lm 0)) ++ tag_bytes typ),
     Ok (mkChunkWriter lm (crc32.write (crc32.new crc32.IEEE) (tag_bytes typ))
                       (Z.of_nat (pos s)))).
Proof.
  intros Hc Hk Hp. unfold begin, bind. rewrite seek_current0. cbv beta iota zeta.
  unfold write_all at 1. rewrite (write_all_sink_cap k) by (try reflexivity; assumption).
  cbv beta iota zeta.
  unfold write_all. rewrite (write_all_sink_cap k)
    by first [exact Hc | exact Hk | apply pos_le_sink_after; exact Hp | reflexivity].
  cbv beta iota zeta. rewrite sink_after_app_pos by exact Hp. reflexivity.
Qed.

Lemma finish_known_cap (k : nat) (cw : ChunkWriter) (s : Sink) (h : Z) :
  cap s = Some k -> (0 < k)%nat -> (pos s <= length (data s))%nat ->
  len cw = Some h -> 0 <= start cw ->
  start cw + 8 <= Z.of_nat (pos s) < 2 ^ 64 -> Z.of_nat (pos s) - start cw - 8 = h ->
  finish cw s = (sink_after s (u32_to_be_bytes (crc32.sum32 (crc cw))), Ok tt).
Proof.
  intros Hc Hk Hp Hl H0 Hb Hh. unfold finish, bind. rewrite seek_current0.
  cbv beta iota zeta. rewrite Hl, u64_len by lia. rewrite Hh, Z.eqb_refl. cbn [negb].
  unfold ret. cbv beta iota.
  unfold write_all. apply (write_all_sink_cap k); try assumption. reflexivity.
Qed.

(** On a file that accepts at most [k >= 1] bytes per [write] call,
    [write_chunk] still succeeds and lays down the right length field, type
    and payload; its checksum is the CRC-32 of the type followed by every
    buffer [write_all] offered to [ChunkWriter::write]: the payload, then each
    tail left after a short write.  When the payload fits in one call, that is
    the payload itself. *)
Theorem write_chunk_short_writes (k : nat) (typ : Tag) (d : list byte) (s : Sink) :
  cap s = Some k -> (0 < k)%nat -> (pos s <= length (data s))%nat ->
  Z.of_nat (pos s) + 8 + Z.of_nat (length d) < 2 ^ 64 ->
  write_chunk typ d s
  = (sink_after s (u32_to_be_bytes (Z.of_nat (length d)) ++ tag_bytes typ ++ d
                   ++ u32_to_be_bytes (crc32_ref (tag_bytes typ ++ concat (offered k (length d) d)))),
     Ok tt) /\
  ((length d <= k)%nat -> concat (offered k (length d) d) = d).
Proof.
  intros Hc Hk Hp Hb. split.
  - unfold write_chunk.
    rewrite (bind_ok _ _ _ _ _ (begin_cap k s typ _ Hc Hk Hp)).
    set (s1 := sink_after s _).
    assert (Hp1 : (pos s1 <= length (data s1))%nat) by (apply pos_le_sink_after; exact Hp).
    assert (Hpos1 : pos s1 = (pos s + 8)%nat)
      by (unfold s1; rewrite pos_sink_after, length_app; reflexivity).
    unfold write_all at 1.
    rewrite (bind_ok _ _ _ _ _ (write_all_cw_cap k (length d) _ d s1 Hc Hk Hp1 (le_n _))).
    cbn [len crc start].
    rewrite (finish_known_cap k) with (h := Z.of_nat (length d)).
    + cbn [crc]. rewrite crc_of_chunk. unfold s1.
      rewrite !sink_after_app_pos by first [exact Hp | apply pos_le_sink_after; exact Hp].
      rewrite u32_to_be_bytes_as_u32. cbn [unwrap_or]. rewrite <- !app_assoc. reflexivity.
    + exact Hc.
    + exact Hk.
    + apply pos_le_sink_after. exact Hp1.
    + reflexivity.
    + cbn [start]. lia.
    + cbn [start]. rewrite pos_sink_after, Hpos1. lia.
    + cbn [start]. rewrite pos_sink_after, Hpos1. lia.
  - intros Hd. destruct d as [|b rest]; [reflexivity|].
    apply offered_short; [exact Hd | cbn [length]; lia].
Qed.

Lemma write_chunk_short_writes_witness :
  write_chunk IEND [x01; x02] (mkSink [] 0 (Some 1%nat))
  = (sink_after (mkSink [] 0 (Some 1%nat))
       (u32_to_be_bytes 2 ++ tag_bytes IEND ++ [x01; x02]
        ++ u32_to_be_bytes (crc32_ref (tag_bytes IEND ++ [x01; x02; x02]))), Ok tt).
Proof.
  destruct (write_chunk_short_writes 1 IEND [x01; x02] (mkSink [] 0 (Some 1%nat))
              eq_refl ltac:(lia) ltac:(cbn; lia) ltac:(vm_compute; reflexivity)) as [H _].
  exact H.
Defined.

(** ** [ZeroReader::read] *)

(** One [read] call on a reader with [at <= count] fills the first
    [k = min(buf.len(), count - at)] bytes of the buffer with zeroes, leaves
    the rest of the buffer as it was, advances [at] by [k] (never past
    [count]) and returns [k]. *)
Theorem zero_reader_read (r : ZeroReader) (buf : list byte) :
  0 <= at_ r <= count r ->
  let k := Nat.min (length buf) (Z.to_nat (count r - at_ r)) in
  read r buf = (mkZeroReader (count r) (at_ r + Z.of_nat k), repeat x00 k ++ skipn k buf, Z.of_nat k)
  /\ 0 <= at_ r + Z.of_nat k <= count r.
Proof.
  intros Hr k. split.
  - unfold read. rewrite read_loop_spec by exact Hr. reflexivity.
  - unfold k. lia.
Qed.

Lemma zero_reader_read_witness :
  read (mkZeroReader 5 3) [x07; x07; x07; x07]
  = (mkZeroReader 5 5, [x00; x00; x07; x07], 2).
Proof.
  destruct (zero_reader_read (mkZeroReader 5 3) [x07; x07; x07; x07] ltac:(cbn; lia)) as [H _].
  exact H.
Defined.

(** Reading [a] bytes and then [b] bytes from a [ZeroReader] yields the same
    bytes and leaves it in the same state as one read of [a + b] bytes. *)
Theorem zero_reader_reads_compose (r : ZeroReader) (fill : byte) (a b : nat) :
  0 <= at_ r <= count r ->
  read_many r fill [a; b] = read_many r fill [(a + b)%nat].
Proof.
  intros Hr. rewrite !read_many_spec by exact Hr. cbn [list_sum fold_right].
  rewrite !Nat.add_0_r. reflexivity.
Qed.

Lemma zero_reader_reads_compose_witness :
  read_many (mkZeroReader 10 4) x07 [3; 5]%nat = read_many (mkZeroReader 10 4) x07 [8]%nat.
Proof. apply (zero_reader_reads_compose (mkZeroReader 10 4) x07 3 5). cbn; lia. Defined.

(** ** Where a chunk goes in the file *)

Lemma sink_after_frame (s : Sink) (X : list byte) :
  (pos s <= length (data s))%nat ->
  pos (sink_after s X) = (pos s + length X)%nat /\
  firstn (pos s) (data (sink_after s X)) = firstn (pos s) (data s) /\
  skipn (pos s + length X) (data (sink_after s X)) = skipn (pos s + length X) (data s) /\
  length (data (sink_after s X)) = Nat.max (length (data s)) (pos s + length X).
Proof.
  intros Hp. assert (Hf : length (firstn (pos s) (data s)) = pos s)
    by (rewrite length_firstn; lia).
  split; [reflexivity|]. split; [|split].
  - unfold sink_after. cbn [data]. rewrite overwrite_in by exact Hp.
    apply firstn_app_exact. symmetry. exact Hf.
  - unfold sink_after. cbn [data]. rewrite overwrite_in by exact Hp.
    rewrite app_assoc, skipn_app_exact with (k := 0%nat)
      by (rewrite length_app, Hf; lia).
    apply skipn_O.
  - unfold sink_after. cbn [data]. apply length_overwrite_in. exact Hp.
Qed.

(** A chunk framed by [begin], writes and [finish], with no declared length
    or with the right one, on a file that accepts whole writes, occupies the
    [12 + payload] bytes from the cursor: the bytes before the cursor and
    after the chunk are left as they were (the [Deferred] patch seeks back
    only into the chunk), the cursor ends right after the chunk, and the file
    grows only as far as the chunk reaches. *)
Theorem chunk_stays_in_place (typ : Tag) (lm : option Z) (ds : list (list byte)) (s : Sink) :
  full s -> Z.of_nat (pos s) + 8 + Z.of_nat (length (concat ds)) < 2 ^ 64 ->
  lm = None \/ lm = Some (Z.of_nat (length (concat ds))) ->
  let s' := fst (framed typ lm ds s) in
  let n := (12 + length (concat ds))%nat in
  snd (framed typ lm ds s) = Ok tt /\
  pos s' = (pos s + n)%nat /\
  firstn (pos s) (data s') = firstn (pos s) (data s) /\
  skipn (pos s + n) (data s') = skipn (pos s + n) (data s) /\
  length (data s') = Nat.max (length (data s)) (pos s + n).
Proof.
  intros Hf Hb Hlm s' n.
  assert (E : framed typ lm ds s
              = (sink_after s (chunk_bytes (Z.of_nat (length (concat ds))) typ (concat ds)), Ok tt)).
  { rewrite framed_full by assumption.
    destruct Hlm as [-> | ->]; cbv zeta; [reflexivity|]. rewrite Z.eqb_refl. reflexivity. }
  unfold s', n. rewrite E. cbn [fst snd].
  destruct (sink_after_frame s (chunk_bytes (Z.of_nat (length (concat ds))) typ (concat ds))
              (proj2 Hf)) as (H1 & H2 & H3 & H4).
  rewrite length_chunk_bytes in H1, H3, H4.
  split; [reflexivity|]. split; [exact H1|]. split; [exact H2|]. split; [exact H3|exact H4].
Qed.

Lemma chunk_stays_in_place_witness :
  skipn 13 (data (fst (framed IDAT None [[x01]] (mkSink (repeat x07 20) 0 None))))
  = repeat x07 7.
Proof.
  pose proof (chunk_stays_in_place IDAT None [[x01]] (mkSink (repeat x07 20) 0 None)
                ltac:(split; [reflexivity | cbn; lia]) ltac:(vm_compute; reflexivity)
                (or_introl eq_refl)) as H.
  cbv zeta in H. destruct H as (_ & _ & _ & H & _). exact H.
Defined.

(** Two [write_chunk] calls in a row on a file that accepts whole writes lay
    down the two complete chunks back to back at the cursor. *)
Theorem write_chunk_then_write_chunk (t1 : Tag) (d1 : list byte) (t2 : Tag) (d2 : list byte)
    (s : Sink) :
  full s -> Z.of_nat (pos s) + 20 + Z.of_nat (length d1) + Z.of_nat (length d2) < 2 ^ 64 ->
  (write_chunk t1 d1 ;;; write_chunk t2 d2) s
  = (sink_after s (chunk_bytes (Z.of_nat (length d1)) t1 d1
                   ++ chunk_bytes (Z.of_nat (length d2)) t2 d2), Ok tt).
Proof.
  intros Hf Hb.
  rewrite (bind_ok _ _ _ _ _ (write_chunk_full s t1 d1 Hf ltac:(lia))).
  rewrite write_chunk_full.
  - apply f_equal2; [|reflexivity]. apply sink_after_app. exact Hf.
  - apply full_sink_after. exact Hf.
  - rewrite pos_sink_after, length_chunk_bytes. lia.
Qed.

Lemma write_chunk_then_write_chunk_witness :
  (write_chunk IDAT [x01] ;;; write_chunk IEND []) empty_file
  = (sink_after empty_file (chunk_bytes 1 IDAT [x01] ++ chunk_bytes 0 IEND []), Ok tt).
Proof.
  apply (write_chunk_then_write_chunk IDAT [x01] IEND [] empty_file).
  - split; [reflexivity | cbn; lia].
  - vm_compute. reflexivity.
Defined.

(** ** A file that takes no bytes *)

Lemma bind_err {A B} (m : M A) (k : A -> M B) (s s' : Sink) (e : Error) :
  m s = (s', Err e) -> bind m k s = (s', Err e).
Proof. intros H. unfold bind. rewrite H. reflexivity. Qed.

Lemma write_all_refused (buf : list byte) (s : Sink) :
  cap s = Some 0%nat -> (pos s <= length (data s))%nat -> buf <> [] ->
  write_all sink_write tt buf s = (s, Err (IO WriteZero)).
Proof.
  intros Hc Hp Hne. destruct buf as [|b rest]; [congruence|].
  unfold write_all. cbn [length write_all_fuel].
  unfold bind, sink_write. cbv beta zeta. rewrite Hc. cbv beta iota.
  cbn [Nat.min firstn Nat.eqb]. unfold fail.
  rewrite overwrite_in by exact Hp. cbn [app length]. rewrite !Nat.add_0_r, firstn_skipn.
  destruct s as [d p c]. cbn [data pos cap] in *. subst c. reflexivity.
Qed.

(** On a file whose [write] accepts no bytes (returns [Ok(0)]), [write_chunk]
    fails with [ErrorKind::WriteZero] from the first [write_all] of [begin],
    and the file is left exactly as it was. *)
Theorem write_chunk_refused (typ : Tag) (d : list byte) (s : Sink) :
  cap s = Some 0%nat -> (pos s <= length (data s))%nat ->
  write_chunk typ d s = (s, Err (IO WriteZero)).
Proof.
  intros Hc Hp. unfold write_chunk, begin.
  apply bind_err. unfold bind at 1. rewrite seek_current0. cbv beta iota.
  apply bind_err. apply write_all_refused; [exact Hc | exact Hp | discriminate].
Qed.

Lemma write_chunk_refused_witness :
  write_chunk IHDR [x01] (mkSink [x05] 1 (Some 0%nat))
  = (mkSink [x05] 1 (Some 0%nat), Err (IO WriteZero)).
Proof. apply write_chunk_refused; [reflexivity | cbn; lia]. Defined.

(** [render] on a file whose [write] accepts no bytes fails with
    [ErrorKind::WriteZero] on the signature, before any chunk is opened, and
    leaves the file as it was. *)
Theorem render_refused (zlib_reads : list byte -> list (list byte)) (width height : Z)
    (c : ColorType) (b : BitDepth) (s : Sink) :
  cap s = Some 0%nat -> (pos s <= length (data s))%nat ->
  render zlib_reads width height c b s = (s, Err (IO WriteZero)).
Proof.
  intros Hc Hp. unfold render. apply bind_err.
  apply write_all_refused; [exact Hc | exact Hp | discriminate].
Qed.

Lemma render_refused_witness :
  render stored_zlib 2 2 Grayscale One (mkSink [] 0 (Some 0%nat))
  = (mkSink [] 0 (Some 0%nat), Err (IO WriteZero)).
Proof. apply render_refused; [reflexivity | cbn; lia]. Defined.

(** ** [render] in general *)

Lemma ihdr_payload_layout (w h : Z) (c : ColorType) (b : BitDepth) :
  ihdr_payload w h c b
  = u32_to_be_bytes (as_u32 w) ++ u32_to_be_bytes (as_u32 h)
    ++ [bz (bit_depth_u8 b); bz (color_type_u8 c); x00; x00; x00].
Proof.
  unfold ihdr_payload, overwrite, u32_to_be_bytes.
  cbn [firstn skipn repeat length app Nat.sub Nat.add]. reflexivity.
Qed.

Lemma length_ihdr_payload (w h : Z) (c : ColorType) (b : BitDepth) :
  length (ihdr_payload w h c b) = 13%nat.
Proof. rewrite ihdr_payload_layout. reflexivity. Qed.

(** For every width, height, colour type and bit depth, [render] on a new
    file writes the signature, an IHDR chunk whose 13-byte payload is the
    width and the height truncated to [u32] (big-endian), the bit depth, the
    colour type and three zero bytes (compression, filter, interlace), one
    IDAT chunk holding everything the compressor returned for a stream of
    [ibytes = (raw_row_length(width as u32) * height) mod 2^64] zero bytes,
    with its length field taken modulo [2^32], and an empty IEND chunk; each
    checksum is the CRC-32 of the chunk's type and payload.  The compressor
    is any one whose reads are non-empty and total less than [2^63] bytes. *)
Theorem render_layout (zlib_reads : list byte -> list (list byte)) (width height : Z)
    (c : ColorType) (b : BitDepth) :
  let ibytes := (raw_row_length (as_u32 width) c b * height) mod 2 ^ 64 in
  let raw := repeat x00 (Z.to_nat ibytes) in
  Forall (fun blk => blk <> []) (zlib_reads raw) ->
  Z.of_nat (length (concat (zlib_reads raw))) < 2 ^ 63 ->
  let Zd := concat (zlib_reads raw) in
  let hdr := u32_to_be_bytes (as_u32 width) ++ u32_to_be_bytes (as_u32 height)
             ++ [bz (bit_depth_u8 b); bz (color_type_u8 c); x00; x00; x00] in
  let out := signature
             ++ chunk_bytes 13 IHDR hdr
             ++ chunk_bytes (Z.of_nat (length Zd)) IDAT Zd
             ++ chunk_bytes 0 IEND [] in
  render zlib_reads width height c b empty_file = (mkSink out (length out) None, Ok tt).
Proof.
  intros ibytes raw Hne Hlen Zd hdr out. subst ibytes raw.
  assert (HZd : Z.of_nat (length Zd) < 2 ^ 63) by exact Hlen.
  set (s1 := sink_after empty_file signature).
  set (s2 := sink_after s1 (chunk_bytes 13 IHDR (ihdr_payload width height c b))).
  assert (F1 : full s1) by (apply full_sink_after, full_empty_file).
  assert (F2 : full s2) by (apply full_sink_after, F1).
  assert (P2 : pos s2 = 33%nat)
    by (unfold s2, s1; rewrite !pos_sink_after, length_chunk_bytes, length_ihdr_payload;
        reflexivity).
  assert (H1 : write_all sink_write tt signature empty_file = (s1, Ok tt))
    by (apply write_all_sink_full, full_empty_file).
  assert (H2 : write_chunk IHDR (ihdr_payload width height c b) s1 = (s2, Ok tt)).
  { rewrite write_chunk_full
      by first [exact F1 | unfold s1; rewrite pos_sink_after, length_ihdr_payload; cbn; lia].
    rewrite length_ihdr_payload. reflexivity. }
  set (hd := u32_to_be_bytes (as_u32 (unwrap_or None 0)) ++ tag_bytes IDAT).
  set (cw0 := mkChunkWriter None (crc32.write (crc32.new crc32.IEEE) (tag_bytes IDAT))
                            (Z.of_nat (pos s2))).
  assert (H3 : begin IDAT None s2 = (sink_after s2 hd, Ok cw0)) by (apply begin_full, F2).
  assert (H4 : idat_loop cw0 (zlib_reads (repeat x00
                 (Z.to_nat ((raw_row_length (as_u32 width) c b * height) mod 2 ^ 64))))
                 (sink_after s2 hd)
               = (sink_after s2 (hd ++ Zd),
                  Ok (mkChunkWriter None (crc32.write (crc32.write (crc32.new crc32.IEEE)
                                                        (tag_bytes IDAT)) Zd)
                                    (Z.of_nat (pos s2))))).
  { rewrite idat_loop_full by first [exact Hne | apply full_sink_after, F2].
    rewrite sink_after_app by exact F2. reflexivity. }
  set (s5 := sink_after s2 (chunk_bytes (Z.of_nat (length Zd)) IDAT Zd)).
  assert (H5 : finish (mkChunkWriter None (crc32.write (crc32.write (crc32.new crc32.IEEE)
                                                        (tag_bytes IDAT)) Zd)
                                    (Z.of_nat (pos s2))) (sink_after s2 (hd ++ Zd))
               = (s5, Ok tt)).
  { unfold hd. rewrite finish_after_writes by first [exact F2 | rewrite P2; lia].
    reflexivity. }
  assert (F5 : full s5) by (apply full_sink_after, F2).
  assert (H6 : write_chunk IEND [] s5 = (sink_after s5 (chunk_bytes 0 IEND []), Ok tt)).
  { rewrite write_chunk_full
      by first [exact F5 | unfold s5; rewrite pos_sink_after, length_chunk_bytes, P2;
                change (length (@nil byte)) with 0%nat; lia].
    reflexivity. }
  unfold render.
  rewrite (bind_ok _ _ _ _ _ H1), (bind_ok _ _ _ _ _ H2). cbv beta zeta.
  rewrite (bind_ok _ _ _ _ _ H3), (bind_ok _ _ _ _ _ H4), (bind_ok _ _ _ _ _ H5).
  rewrite H6. unfold s5, s2, s1.
  repeat (rewrite sink_after_app by (repeat apply full_sink_after; exact full_empty_file)).
  rewrite sink_after_empty. unfold out, hdr. rewrite ihdr_payload_layout.
  rewrite <- ?app_assoc. reflexivity.
Qed.

Lemma render_layout_witness :
  render stored_zlib 3 1 RGB Eight empty_file
  = (let Zd := concat (stored_zlib (repeat x00 10)) in
     let out := signature
                ++ chunk_bytes 13 IHDR (bytes_of [0; 0; 0; 3; 0; 0; 0; 1; 8; 2; 0; 0; 0])
                ++ chunk_bytes (Z.of_nat (length Zd)) IDAT Zd
                ++ chunk_bytes 0 IEND [] in
     (mkSink out (length out) None, Ok tt)).
Proof.
  assert (Hne : Forall (fun blk => blk <> []) (stored_zlib (repeat x00 10)))
    by (vm_compute; constructor; [discriminate | constructor]).
  pose proof (render_layout stored_zlib 3 1 RGB Eight Hne ltac:(vm_compute; reflexivity)) as H.
  cbv zeta in H. rewrite H. vm_compute. reflexivity.
Defined.

(** ** The raw stream of a 1-bit grayscale image *)

(** For the 1-bit grayscale images [run] renders, [render] compresses
    [((1 + ceil(w' / 8)) * height) mod 2^64] zero bytes, where [w'] is the
    width truncated to [u32]: one filter byte and the packed bits of each
    row, with the product wrapping at [2^64]. *)
Theorem gray1_raw_stream_length (width height : Z) :
  (raw_row_length (as_u32 width) Grayscale One * height) mod 2 ^ 64
  = ((1 + (as_u32 width + 7) / 8) * height) mod 2 ^ 64.
Proof.
  f_equal. f_equal. unfold raw_row_length. cbn [samples bit_depth_u8].
  change (8 / 1) with 8. rewrite Z.mul_1_r.
  assert (Hw : 0 <= as_u32 width) by (unfold as_u32; apply Z.mod_pos_bound; lia).
  set (w := as_u32 width) in *.
  pose proof (Z.div_mod w 8 ltac:(lia)) as Hd. pose proof (Z.mod_pos_bound w 8 ltac:(lia)) as Hm.
  destruct (Z.gtb_spec (w mod 8) 0) as [Hp|Hz].
  - assert (E : (w + 7) / 8 = w / 8 + 1).
    { symmetry. apply Z.div_unique with (r := w mod 8 - 1); lia. }
    rewrite E. lia.
  - assert (E : (w + 7) / 8 = w / 8).
    { symmetry. apply Z.div_unique with (r := 7); lia. }
    rewrite E. lia.
Qed.
